(** * NZTM: Transverse Mercator conversions of [nztm.c]

    The C source computes on [double] with [sin], [cos] and [sqrt] of
    [math.h].  The embedding below is written once, over an interface
    [Double] of the operations the source uses, and is read at two
    interpretations of that interface:

    - [Binary64]: IEEE 754 binary64 with round-to-nearest-even, the
      arithmetic a C compiler gives [double] when every operation is
      rounded to [double] on its own (no wider intermediate format, no
      fused multiply-add); [sqrt] is the correctly rounded one, [sin] and
      [cos] are those of the C library and stay unspecified (they are
      arguments of the interpretation);
    - [Exact]: the real numbers, i.e. the source read with every rounding
      removed.  Division is that of [R], which is total ([x / 0] is [0]);
      the results stated in this interpretation say what the formulas of
      the source compute, not when a machine division is defined.

    Every theorem names the interpretation it is about. *)

From Stdlib Require Import ZArith QArith Bool List Lia.
From Stdlib Require Import Reals Qreals Lra Psatz.
From Stdlib Require Import SpecFloat.
From Stdlib Require PrimFloat FloatOps FloatAxioms.

(** ** The arithmetic of [double] *)

Class Double (T : Type) : Type := {
  lit   : Q -> T;            (* a decimal literal, or an [int] converted *)
  dadd  : T -> T -> T;
  dsub  : T -> T -> T;
  dmul  : T -> T -> T;
  ddiv  : T -> T -> T;
  dopp  : T -> T;            (* unary minus *)
  dsqrt : T -> T;
  dsin  : T -> T;
  dcos  : T -> T;
  dlt   : T -> T -> bool;    (* x < y *)
  deq   : T -> T -> bool     (* x == y *)
}.

Arguments lit {T _} _%_Q.

Declare Scope double_scope.
Delimit Scope double_scope with D.
Infix "+" := dadd : double_scope.
Infix "-" := dsub : double_scope.
Infix "*" := dmul : double_scope.
Infix "/" := ddiv : double_scope.
Notation "- x" := (dopp x) : double_scope.
Notation "x <? y" := (dlt x y) : double_scope.
Notation "x >? y" := (dlt y x) : double_scope.
Notation "x !=? y" := (negb (deq x y)) (at level 70) : double_scope.

(** ** The program *)

Module Nztm.

Section Program.

Context {T : Type} {D : Double T}.

Local Open Scope double_scope.

(** [#define PI 3.1415926535898], [TWOPI (2.0*PI)], [rad2deg (180/PI)]. *)
Definition PI : T := lit 3.1415926535898.
Definition TWOPI : T := lit 2.0 * PI.
Definition rad2deg : T := lit 180 / PI.

(** [typedef struct { ... } tmprojection]. *)
Record tmprojection : Type := {
  meridian : T;          (* Central meridian *)
  scalef : T;            (* Scale factor *)
  orglat : T;            (* Origin latitude *)
  falsee : T;            (* False easting *)
  falsen : T;            (* False northing *)
  utom : T;              (* Unit to metre conversion *)
  a : T; rf : T; f : T; e2 : T; ep2 : T;   (* Ellipsoid parameters *)
  om : T                 (* Intermediate calculation *)
}.

(** The assignment [tm->om = v]. *)
Definition set_om (tm : tmprojection) (v : T) : tmprojection :=
  {| meridian := meridian tm; scalef := scalef tm; orglat := orglat tm;
     falsee := falsee tm; falsen := falsen tm; utom := utom tm;
     a := a tm; rf := rf tm; f := f tm; e2 := e2 tm; ep2 := ep2 tm;
     om := v |}.

Definition meridian_arc (tm : tmprojection) (lt : T) : T :=
  let e2 := e2 tm in
  let a := a tm in
  let e4 := e2 * e2 in
  let e6 := e4 * e2 in
  let A0 := lit 1 - (e2 / lit 4.0) - (lit 3.0 * e4 / lit 64.0)
            - (lit 5.0 * e6 / lit 256.0) in
  let A2 := (lit 3.0 / lit 8.0)
            * (e2 + e4 / lit 4.0 + lit 15.0 * e6 / lit 128.0) in
  let A4 := (lit 15.0 / lit 256.0) * (e4 + lit 3.0 * e6 / lit 4.0) in
  let A6 := lit 35.0 * e6 / lit 3072.0 in
  a * (A0 * lt - A2 * dsin (lit 2 * lt) + A4 * dsin (lit 4 * lt)
       - A6 * dsin (lit 6 * lt)).

(** [define_tmprojection] writes every field of [*tm]; [tm->om] is written
    last, from the structure as filled so far. *)
Definition define_tmprojection (tm : tmprojection)
    (a rf cm sf lto fe fn utom : T) : tmprojection :=
  let f := if rf !=? lit 0.0 then lit 1.0 / rf else lit 0.0 in
  let e2 := lit 2.0 * f - f * f in
  let tm :=
    {| meridian := cm; scalef := sf; orglat := lto; falsee := fe;
       falsen := fn; utom := utom; a := a; rf := rf; f := f; e2 := e2;
       ep2 := e2 / (lit 1.0 - e2); om := om tm |} in
  set_om tm (meridian_arc tm (orglat tm)).

Definition foot_point_lat (tm : tmprojection) (m : T) : T :=
  let f := f tm in
  let a := a tm in
  let n := f / (lit 2.0 - f) in
  let n2 := n * n in
  let n3 := n2 * n in
  let n4 := n2 * n2 in
  let g := a * (lit 1.0 - n) * (lit 1.0 - n2)
           * (lit 1 + lit 9.0 * n2 / lit 4.0 + lit 225.0 * n4 / lit 64.0) in
  let sig := m / g in
  let phio := sig + (lit 3.0 * n / lit 2.0 - lit 27.0 * n3 / lit 32.0)
                    * dsin (lit 2.0 * sig)
                  + (lit 21.0 * n2 / lit 16.0 - lit 55.0 * n4 / lit 32.0)
                    * dsin (lit 4.0 * sig)
                  + (lit 151.0 * n3 / lit 96.0) * dsin (lit 6.0 * sig)
                  + (lit 1097.0 * n4 / lit 512.0) * dsin (lit 8.0 * sig) in
  phio.

(** [tm_geod] stores through [ln] and [lt]; the pair is [( *ln, *lt )]. *)
Definition tm_geod (tm : tmprojection) (ce cn : T) : T * T :=
  let fn := falsen tm in
  let fe := falsee tm in
  let sf := scalef tm in
  let e2 := e2 tm in
  let a := a tm in
  let cm := meridian tm in
  let om := om tm in
  let utom := utom tm in
  let cn1 := (cn - fn) * utom / sf + om in
  let fphi := foot_point_lat tm cn1 in
  let slt := dsin fphi in
  let clt := dcos fphi in
  let eslt := lit 1.0 - e2 * slt * slt in
  let eta := a / dsqrt eslt in
  let rho := eta * (lit 1.0 - e2) / eslt in
  let psi := eta / rho in
  let E := (ce - fe) * utom in
  let x := E / (eta * sf) in
  let x2 := x * x in
  let t := slt / clt in
  let t2 := t * t in
  let t4 := t2 * t2 in
  let trm1 := lit 1.0 / lit 2.0 in
  let trm2 := ((- lit 4.0 * psi
                + lit 9.0 * (lit 1 - t2)) * psi
                + lit 12.0 * t2) / lit 24.0 in
  let trm3 := ((((lit 8.0 * (lit 11.0 - lit 24.0 * t2) * psi
                 - lit 12.0 * (lit 21.0 - lit 71.0 * t2)) * psi
                 + lit 15.0 * ((lit 15.0 * t2 - lit 98.0) * t2 + lit 15)) * psi
                 + lit 180.0 * ((- lit 3.0 * t2 + lit 5.0) * t2)) * psi
                 + lit 360.0 * t4) / lit 720.0 in
  let trm4 := (((lit 1575.0 * t2 + lit 4095.0) * t2 + lit 3633.0) * t2
               + lit 1385.0) / lit 40320.0 in
  let lt := fphi + (t * x * E / (sf * rho))
                   * (((trm4 * x2 - trm3) * x2 + trm2) * x2 - trm1) in
  let trm1 := lit 1.0 in
  let trm2 := (psi + lit 2.0 * t2) / lit 6.0 in
  let trm3 := (((- lit 4.0 * (lit 1.0 - lit 6.0 * t2) * psi
                + (lit 9.0 - lit 68.0 * t2)) * psi
                + lit 72.0 * t2) * psi
                + lit 24.0 * t4) / lit 120.0 in
  let trm4 := (((lit 720.0 * t2 + lit 1320.0) * t2 + lit 662.0) * t2
               + lit 61.0) / lit 5040.0 in
  let ln := cm - (x / clt)
                 * (((trm4 * x2 - trm3) * x2 + trm2) * x2 - trm1) in
  (ln, lt).

(** The two loops of [geod_tm],
    [while ( dlon > PI ) dlon -= TWOPI;] and
    [while ( dlon < -PI ) dlon += TWOPI;].
    [fuel] bounds the number of times the loop condition is evaluated;
    [None] means the loop is still running when the fuel is spent. *)
Fixpoint while_gt_PI (fuel : nat) (dlon : T) : option T :=
  match fuel with
  | O => None
  | S fuel' =>
      if dlon >? PI then while_gt_PI fuel' (dlon - TWOPI) else Some dlon
  end.

Fixpoint while_lt_mPI (fuel : nat) (dlon : T) : option T :=
  match fuel with
  | O => None
  | S fuel' =>
      if dlon <? - PI then while_lt_mPI fuel' (dlon + TWOPI) else Some dlon
  end.

(** Lines 281-283 of [geod_tm]: [dlon] as it stands after the loops. *)
Definition geod_tm_dlon (fuel : nat) (cm ln : T) : option T :=
  let dlon := ln - cm in
  match while_gt_PI fuel dlon with
  | None => None
  | Some dlon => while_lt_mPI fuel dlon
  end.

(** Lines 285-329 of [geod_tm], from the normalised [dlon] on; the pair is
    [( *ce, *cn )]. *)
Definition geod_tm_grid (tm : tmprojection) (dlon lt : T) : T * T :=
  let fn := falsen tm in
  let fe := falsee tm in
  let sf := scalef tm in
  let e2 := e2 tm in
  let a := a tm in
  let om := om tm in
  let utom := utom tm in
  let m := meridian_arc tm lt in
  let slt := dsin lt in
  let eslt := lit 1.0 - e2 * slt * slt in
  let eta := a / dsqrt eslt in
  let rho := eta * (lit 1.0 - e2) / eslt in
  let psi := eta / rho in
  let clt := dcos lt in
  let w := dlon in
  let wc := clt * w in
  let wc2 := wc * wc in
  let t := slt / clt in
  let t2 := t * t in
  let t4 := t2 * t2 in
  let t6 := t2 * t4 in
  let trm1 := (psi - t2) / lit 6.0 in
  let trm2 := (((lit 4.0 * (lit 1.0 - lit 6.0 * t2) * psi
                + (lit 1.0 + lit 8.0 * t2)) * psi
                - lit 2.0 * t2) * psi + t4) / lit 120.0 in
  let trm3 := (lit 61 - lit 479.0 * t2 + lit 179.0 * t4 - t6) / lit 5040.0 in
  let gce := (sf * eta * dlon * clt)
             * (((trm3 * wc2 + trm2) * wc2 + trm1) * wc2 + lit 1.0) in
  let ce := gce / utom + fe in
  let trm1 := lit 1.0 / lit 2.0 in
  let trm2 := ((lit 4.0 * psi + lit 1) * psi - t2) / lit 24.0 in
  let trm3 := ((((lit 8.0 * (lit 11.0 - lit 24.0 * t2) * psi
                 - lit 28.0 * (lit 1.0 - lit 6.0 * t2)) * psi
                 + (lit 1.0 - lit 32.0 * t2)) * psi
                 - lit 2.0 * t2) * psi
                 + t4) / lit 720.0 in
  let trm4 := (lit 1385.0 - lit 3111.0 * t2 + lit 543.0 * t4 - t6)
              / lit 40320.0 in
  let gcn := (eta * t)
             * ((((trm4 * wc2 + trm3) * wc2 + trm2) * wc2 + trm1) * wc2) in
  let cn := (gcn + m - om) * sf / utom + fn in
  (ce, cn).

Definition geod_tm (fuel : nat) (tm : tmprojection) (ln lt : T)
  : option (T * T) :=
  match geod_tm_dlon fuel (meridian tm) ln with
  | None => None
  | Some dlon => Some (geod_tm_grid tm dlon lt)
  end.

(** A [tmprojection] with every member zero. *)
Definition tm_zero : tmprojection :=
  let z := lit 0 in
  {| meridian := z; scalef := z; orglat := z; falsee := z; falsen := z;
     utom := z; a := z; rf := z; f := z; e2 := z; ep2 := z; om := z |}.

(** *** The static NZTM projection

    [nztm.h] is not part of the sources at hand: its constants [NZTM_A],
    [NZTM_RF], [NZTM_CM], [NZTM_SF], [NZTM_OLAT], [NZTM_FE] and [NZTM_FN]
    are parameters of this part. *)

Section Preset.

Variables NZTM_A NZTM_RF NZTM_CM NZTM_SF NZTM_OLAT NZTM_FE NZTM_FN : T.

(** The file-scope objects [static tmprojection nztm_projection] and
    [static int initiallized].  [defines] is a ghost counter, absent from
    the source: the number of calls of [define_tmprojection] made so far. *)
Record globals : Type := {
  nztm_projection : tmprojection;
  initiallized : Z;
  defines : nat
}.

(** Objects of static storage duration start zeroed. *)
Definition globals_init : globals :=
  {| nztm_projection := tm_zero; initiallized := 0; defines := 0 |}.

(** [get_nztm_projection] always returns [&nztm_projection]: the caller
    reads the projection from the globals this function leaves. *)
Definition get_nztm_projection (g : globals) : globals :=
  if (initiallized g =? 0)%Z then
    {| nztm_projection :=
         define_tmprojection (nztm_projection g) NZTM_A NZTM_RF
           (NZTM_CM / rad2deg) NZTM_SF (NZTM_OLAT / rad2deg) NZTM_FE NZTM_FN
           (lit 1.0);
       initiallized := 1;
       defines := S (defines g) |}
  else g.

(** [nztm_geod( n, e, &lt, &ln )]: the globals it leaves and [(lt, ln)]. *)
Definition nztm_geod (g : globals) (n e : T) : globals * (T * T) :=
  let g' := get_nztm_projection g in
  let '(ln, lt) := tm_geod (nztm_projection g') e n in
  (g', (lt, ln)).

(** [geod_nztm( lt, ln, &n, &e )]: the globals it leaves and [(n, e)]. *)
Definition geod_nztm (fuel : nat) (g : globals) (lt ln : T)
  : option (globals * (T * T)) :=
  let g' := get_nztm_projection g in
  match geod_tm fuel (nztm_projection g') ln lt with
  | None => None
  | Some (e, n) => Some (g', (n, e))
  end.

End Preset.

End Program.

Arguments tmprojection T : clear implicits.
Arguments globals T : clear implicits.

End Nztm.

(** ** Interpretation: IEEE 754 binary64 *)

Module B64.

Definition prec : Z := 53.
Definition emax : Z := 1024.

(** The [double] nearest to an integer. *)
Definition of_Z (z : Z) : spec_float := binary_normalize prec emax z 0 false.

(** A decimal literal [n/d]: the correctly rounded quotient of [n] and [d].
    Both are doubles themselves for every literal of the source (they are
    below [2^53]), so this is the double nearest to the literal. *)
Definition of_Q (q : Q) : spec_float :=
  SFdiv prec emax (of_Z (Qnum q)) (of_Z (Zpos (Qden q))).

Definition is_nan (x : spec_float) : bool :=
  match x with S754_nan => true | _ => false end.

Definition is_zero (x : spec_float) : bool :=
  match x with S754_zero _ => true | _ => false end.

Definition is_finite (x : spec_float) : bool :=
  match x with S754_zero _ | S754_finite _ _ _ => true | _ => false end.

(** The values that are doubles: canonical mantissa, exponent in range. *)
Definition valid (x : spec_float) : Prop := valid_binary prec emax x = true.

(** A zero of either sign, or NaN: what a product with a zero factor is. *)
Definition zero_or_nan (x : spec_float) : bool := is_zero x || is_nan x.

End B64.

(** [sin64] and [cos64] stand for [sin] and [cos] of the C library. *)
Definition Binary64 (sin64 cos64 : spec_float -> spec_float)
  : Double spec_float :=
  {| lit := B64.of_Q;
     dadd := SFadd B64.prec B64.emax;
     dsub := SFsub B64.prec B64.emax;
     dmul := SFmul B64.prec B64.emax;
     ddiv := SFdiv B64.prec B64.emax;
     dopp := SFopp;
     dsqrt := SFsqrt B64.prec B64.emax;
     dsin := sin64;
     dcos := cos64;
     dlt := SFltb;
     deq := SFeqb |}.

(** ** Interpretation: exact real arithmetic *)

Definition Exact : Double R :=
  {| lit := Q2R;
     dadd := Rplus;
     dsub := Rminus;
     dmul := Rmult;
     ddiv := Rdiv;
     dopp := Ropp;
     dsqrt := sqrt;
     dsin := sin;
     dcos := cos;
     dlt := fun x y => if Rlt_dec x y then true else false;
     deq := fun x y => if Req_dec_T x y then true else false |}.

(** ** The formulas of the specification, over the reals *)

Module Spec.

Local Open Scope R_scope.


(** Meridional arc: the coefficients [A0], [A2], [A4], [A6] with
    [e4 = e2^2] and [e6 = e2 * e4]. *)
Definition e4 (e2 : R) : R := e2 ^ 2.
Definition e6 (e2 : R) : R := e2 * e4 e2.
Definition A0 (e2 : R) : R := 1 - e2 / 4 - 3 * e4 e2 / 64 - 5 * e6 e2 / 256.
Definition A2 (e2 : R) : R := (3 / 8) * (e2 + e4 e2 / 4 + 15 * e6 e2 / 128).
Definition A4 (e2 : R) : R := (15 / 256) * (e4 e2 + 3 * e6 e2 / 4).
Definition A6 (e2 : R) : R := 35 * e6 e2 / 3072.

Definition g (a n : R) : R :=
  a * (1 - n) * (1 - n ^ 2) * (1 + 9 * n ^ 2 / 4 + 225 * n ^ 4 / 64).

End Spec.

(** ** The constants of [nztm.h] *)

Module NztmH.

Section Constants.

Context {T : Type} {D : Double T}.

(** Modelled from the spec: [NZTM_A] of nztm.h, the ellipsoid axis
    6378137 m. *)
Definition NZTM_A : T := lit 6378137.
(** Modelled from the spec: [NZTM_RF] of nztm.h, the inverse flattening
    298.257222101. *)
Definition NZTM_RF : T := lit 298.257222101.
(** Modelled from the spec: [NZTM_CM] of nztm.h, the central meridian
    173 degrees east. *)
Definition NZTM_CM : T := lit 173.0.
(** Modelled from the spec: [NZTM_OLAT] of nztm.h, the origin latitude
    0 degrees. *)
Definition NZTM_OLAT : T := lit 0.0.
(** Modelled from the spec: [NZTM_SF] of nztm.h, the scale factor 0.9996. *)
Definition NZTM_SF : T := lit 0.9996.
(** Modelled from the spec: [NZTM_FE] of nztm.h, the false easting
    1600000 m. *)
Definition NZTM_FE : T := lit 1600000.0.
(** Modelled from the spec: [NZTM_FN] of nztm.h, the false northing
    10000000 m. *)
Definition NZTM_FN : T := lit 10000000.0.

(** The functions of the source at these constants. *)
Definition get_nztm_projection : Nztm.globals T -> Nztm.globals T :=
  Nztm.get_nztm_projection
    NZTM_A NZTM_RF NZTM_CM NZTM_SF NZTM_OLAT NZTM_FE NZTM_FN.
Definition geod_nztm
  : nat -> Nztm.globals T -> T -> T -> option (Nztm.globals T * (T * T)) :=
  Nztm.geod_nztm NZTM_A NZTM_RF NZTM_CM NZTM_SF NZTM_OLAT NZTM_FE NZTM_FN.

End Constants.

End NztmH.

(** ** Inputs of the examples *)

Module Inputs.

Section Generic.

Context {T : Type} {D : Double T}.

(** The longitude [1e17] (radians). *)
Definition huge_longitude : T := lit 1e17.



(** The same projection in metres on the GRS80 ellipsoid itself. *)
Definition grs80 : Nztm.tmprojection T :=
  Nztm.define_tmprojection Nztm.tm_zero (lit 6378137) (lit 298.257222101)
    (lit 0.0) (lit 0.9996) (lit 0.0) (lit 1600000.0) (lit 10000000.0)
    (lit 1.0).

End Generic.

(** Stand-ins for the library's [sin] and [cos] where an example needs
    concrete ones: the identity and the constant 1, their values near
    zero. *)
Definition sin_id (x : spec_float) : spec_float := x.
Definition cos_one (_ : spec_float) : spec_float := B64.of_Q 1.


End Inputs.

(** * Proofs *)

(** ** Fuel of the two loops *)

Section Fuel.
Context {T : Type} {D : Double T}.

Lemma while_gt_PI_fuel (n m : nat) (d r : T) :
  Nztm.while_gt_PI n d = Some r -> (n <= m)%nat -> Nztm.while_gt_PI m d = Some r.
Proof.
  revert m d. induction n as [|n IH]; intros m d H Hle; [discriminate|].
  destruct m as [|m]; [lia|]. cbn in *.
  destruct (dlt Nztm.PI d); [apply IH; [exact H|lia] | exact H].
Qed.

Lemma while_lt_mPI_fuel (n m : nat) (d r : T) :
  Nztm.while_lt_mPI n d = Some r -> (n <= m)%nat -> Nztm.while_lt_mPI m d = Some r.
Proof.
  revert m d. induction n as [|n IH]; intros m d H Hle; [discriminate|].
  destruct m as [|m]; [lia|]. cbn in *.
  destruct (dlt d (dopp Nztm.PI)); [apply IH; [exact H|lia] | exact H].
Qed.

Lemma geod_tm_dlon_fuel (n m : nat) (cm ln r : T) :
  Nztm.geod_tm_dlon n cm ln = Some r -> (n <= m)%nat ->
  Nztm.geod_tm_dlon m cm ln = Some r.
Proof.
  unfold Nztm.geod_tm_dlon. intros H Hle.
  destruct (Nztm.while_gt_PI n (dsub ln cm)) as [d|] eqn:E; [|discriminate].
  rewrite (while_gt_PI_fuel n m _ _ E Hle).
  now apply while_lt_mPI_fuel with n.
Qed.
End Fuel.

(** ** Exact arithmetic: literals *)

Lemma Q2R_integer (q : Q) (z : Z) : Qred q = (z # 1)%Q -> Q2R q = IZR z.
Proof.
  intros H. rewrite <- (Qeq_eqR _ _ (Qred_correct q)), H.
  unfold Q2R; cbn. field.
Qed.

Lemma Q2R_fraction (q : Q) (n : Z) (d : positive) :
  Qred q = (n # d)%Q -> Q2R q = (IZR n / IZR (Zpos d))%R.
Proof.
  intros H. rewrite <- (Qeq_eqR _ _ (Qred_correct q)), H. reflexivity.
Qed.

Ltac exact_lit :=
  repeat match goal with
  | |- context [Q2R ?q] =>
      let r := eval vm_compute in (Qred q) in
      lazymatch r with
      | (?z # 1)%Q => rewrite (Q2R_integer q z eq_refl)
      | (?n # ?d)%Q => rewrite (Q2R_fraction q n d eq_refl)
      end
  end.

Ltac exact_arith :=
  cbn [lit dadd dsub dmul ddiv dopp dsqrt dsin dcos dlt deq Exact];
  exact_lit.

(** ** Exact arithmetic: the closed formulas *)

Section ExactFormulas.

Local Existing Instance Exact.
Local Open Scope R_scope.




End ExactFormulas.

(** ** Exact arithmetic: the normalisation of the longitude difference *)

Section ExactLoops.
Local Existing Instance Exact.
Local Open Scope R_scope.

Lemma PI_exact : Nztm.PI = 15707963267949 / 5000000000000.
Proof. unfold Nztm.PI. exact_arith. reflexivity. Qed.

Lemma TWOPI_exact : Nztm.TWOPI = 2 * Nztm.PI.
Proof. unfold Nztm.TWOPI. exact_arith. reflexivity. Qed.

Lemma PI_pos : 0 < Nztm.PI.
Proof. rewrite PI_exact. lra. Qed.

Lemma dlt_exact (x y : R) : dlt x y = true <-> x < y.
Proof. cbn. destruct (Rlt_dec x y); split; intros; try discriminate; auto; contradiction. Qed.

Lemma dlt_exact_false (x y : R) : dlt x y = false <-> y <= x.
Proof. cbn. destruct (Rlt_dec x y); split; intros; try discriminate; auto; lra. Qed.

Lemma while_gt_PI_exact (n : nat) (d : R) :
  d <= Nztm.PI + INR n * Nztm.TWOPI ->
  exists r j,
    Nztm.while_gt_PI (S n) d = Some r /\
    r = d - IZR j * Nztm.TWOPI /\ r <= Nztm.PI /\
    (d <= Nztm.PI -> r = d) /\ (Nztm.PI < d -> - Nztm.PI < r).
Proof.
  revert d. induction n as [|n IH]; intros d Hd.
  - exists d, 0%Z. cbn [Nztm.while_gt_PI].
    cbn [INR] in Hd.
    assert (E : dlt Nztm.PI d = false) by (apply dlt_exact_false; lra).
    rewrite E. repeat split; try lra.
  - change (Nztm.while_gt_PI (S (S n)) d)
      with (if dlt Nztm.PI d then Nztm.while_gt_PI (S n) (dsub d Nztm.TWOPI)
            else Some d).
    destruct (dlt Nztm.PI d) eqn:E.
    + apply dlt_exact in E.
      destruct (IH (d - Nztm.TWOPI)) as (r & j & Hr & Hj & Hle & Hid & Hlo).
      { rewrite S_INR in Hd. lra. }
      exists r, (j + 1)%Z. split; [exact Hr|].
      rewrite plus_IZR. repeat split; try lra.
      intros _. destruct (Rle_or_lt (d - Nztm.TWOPI) Nztm.PI) as [H|H].
      * rewrite (Hid H). rewrite TWOPI_exact. lra.
      * apply Hlo; exact H.
    + apply dlt_exact_false in E. exists d, 0%Z. repeat split; try lra.
Qed.

Lemma while_lt_mPI_exact (n : nat) (d : R) :
  - Nztm.PI - INR n * Nztm.TWOPI <= d ->
  exists r j,
    Nztm.while_lt_mPI (S n) d = Some r /\
    r = d + IZR j * Nztm.TWOPI /\ - Nztm.PI <= r /\
    (- Nztm.PI <= d -> r = d) /\ (d < - Nztm.PI -> r < Nztm.PI).
Proof.
  revert d. induction n as [|n IH]; intros d Hd.
  - exists d, 0%Z. cbn [Nztm.while_lt_mPI].
    cbn [INR] in Hd.
    assert (E : dlt d (dopp Nztm.PI) = false) by (apply dlt_exact_false; cbn [dopp Exact]; lra).
    rewrite E. repeat split; try lra.
  - change (Nztm.while_lt_mPI (S (S n)) d)
      with (if dlt d (dopp Nztm.PI) then Nztm.while_lt_mPI (S n) (dadd d Nztm.TWOPI)
            else Some d).
    destruct (dlt d (dopp Nztm.PI)) eqn:E.
    + apply dlt_exact in E. cbn [dopp Exact] in E.
      destruct (IH (d + Nztm.TWOPI)) as (r & j & Hr & Hj & Hle & Hid & Hlo).
      { rewrite S_INR in Hd. lra. }
      exists r, (j + 1)%Z. split; [exact Hr|].
      rewrite plus_IZR. repeat split; try lra.
      intros _. destruct (Rle_or_lt (- Nztm.PI) (d + Nztm.TWOPI)) as [H|H].
      * rewrite (Hid H). rewrite TWOPI_exact. lra.
      * apply Hlo; exact H.
    + apply dlt_exact_false in E. cbn [dopp Exact] in E.
      exists d, 0%Z. repeat split; try lra.
Qed.

Lemma nat_above (x : R) : exists n : nat, x <= INR n.
Proof.
  destruct (archimed x) as [Hup _].
  exists (Z.to_nat (up x)).
  rewrite INR_IZR_INZ.
  destruct (Z_le_gt_dec 0 (up x)) as [H|H].
  - rewrite Z2Nat.id by exact H. lra.
  - assert (IZR (up x) < 0) by (apply IZR_lt; lia).
    assert (0 <= IZR (Z.of_nat (Z.to_nat (up x)))) by (apply IZR_le; lia). lra.
Qed.

(** The normalised difference exists, lies in [[-PI, PI]] and differs
    from [ln - cm] by a multiple of [TWOPI]. *)
Lemma geod_tm_dlon_exact (cm ln : R) :
  exists fuel r j,
    Nztm.geod_tm_dlon fuel cm ln = Some r /\
    r = ln - cm + IZR j * Nztm.TWOPI /\
    - Nztm.PI <= r <= Nztm.PI.
Proof.
  pose proof PI_pos as Hpi. pose proof TWOPI_exact as H2.
  destruct (nat_above ((ln - cm) / Nztm.TWOPI)) as [n Hn].
  destruct (nat_above (- (ln - cm) / Nztm.TWOPI)) as [m Hm].
  assert (Hn' : ln - cm <= INR n * Nztm.TWOPI).
  { apply Rmult_le_compat_r with (r := Nztm.TWOPI) in Hn; [|lra].
    unfold Rdiv in Hn. rewrite Rmult_assoc, Rinv_l, Rmult_1_r in Hn by lra. exact Hn. }
  assert (Hm' : - (ln - cm) <= INR m * Nztm.TWOPI).
  { apply Rmult_le_compat_r with (r := Nztm.TWOPI) in Hm; [|lra].
    unfold Rdiv in Hm. rewrite Rmult_assoc, Rinv_l, Rmult_1_r in Hm by lra. exact Hm. }
  destruct (while_gt_PI_exact n (ln - cm)) as (r1 & j1 & Hr1 & Hj1 & Hle1 & Hid1 & Hlo1); [lra|].
  assert (Hr1lo : - Nztm.PI - INR m * Nztm.TWOPI <= r1).
  { destruct (Rle_or_lt (ln - cm) Nztm.PI) as [H|H].
    - rewrite (Hid1 H). lra.
    - specialize (Hlo1 H). pose proof (pos_INR m). nra. }
  destruct (while_lt_mPI_exact m r1) as (r2 & j2 & Hr2 & Hj2 & Hle2 & Hid2 & Hlo2); [exact Hr1lo|].
  exists (S (Nat.max n m)), r2, (j2 - j1)%Z.
  unfold Nztm.geod_tm_dlon.
  change (dsub ln cm) with (ln - cm).
  rewrite (while_gt_PI_fuel (S n) (S (Nat.max n m)) _ _ Hr1) by lia.
  rewrite (while_lt_mPI_fuel (S m) (S (Nat.max n m)) _ _ Hr2) by lia.
  split; [reflexivity|]. rewrite minus_IZR. split; [lra|].
  split; [exact Hle2|].
  destruct (Rle_or_lt (- Nztm.PI) r1) as [H|H].
  - rewrite (Hid2 H). exact Hle1.
  - left. apply Hlo2; exact H.
Qed.

(** In exact arithmetic the two loops finish, and what they leave lies in
    [[-PI, PI]]. *)
Lemma geod_tm_dlon_range_exact (cm ln : R) :
  exists fuel d,
    (forall fuel', (fuel <= fuel')%nat ->
                   Nztm.geod_tm_dlon fuel' cm ln = Some d) /\
    - Nztm.PI <= d <= Nztm.PI.
Proof.
  destruct (geod_tm_dlon_exact cm ln) as (fuel & d & j & E & _ & Hd).
  exists fuel, d. split; [|exact Hd].
  intros fuel' Hle. now apply geod_tm_dlon_fuel with fuel.
Qed.





End ExactLoops.

(** ** Exact arithmetic: the unit sphere at the equator *)

Section ExactSphere.

Local Existing Instance Exact.
Local Open Scope R_scope.






End ExactSphere.

(** ** Exact arithmetic: the central meridian *)

Section ExactMeridian.

Local Existing Instance Exact.
Local Open Scope R_scope.







End ExactMeridian.

(** ** Binary64: literals

    [B64.of_Q] gives the doubles that the kernel's own reader of
    floating-point literals gives. *)

Section B64Literals.

Import PrimFloat FloatOps.

Local Set Warnings "-inexact-float".

Example lit_PI_b64 :
  B64.of_Q 3.1415926535898 = Prim2SF 3.1415926535898%float.
Proof. vm_compute. reflexivity. Qed.

Example lit_RF_b64 : B64.of_Q 298.257222101 = Prim2SF 298.257222101%float.
Proof. vm_compute. reflexivity. Qed.

Example lit_SF_b64 : B64.of_Q 0.9996 = Prim2SF 0.9996%float.
Proof. vm_compute. reflexivity. Qed.

Example lit_1e17_b64 : B64.of_Q 1e17 = Prim2SF 1e17%float.
Proof. vm_compute. reflexivity. Qed.

End B64Literals.

(** ** Binary64: zeros, NaN and infinities through the operations *)

Section B64Arith.

Import B64.

Local Abbreviation add := (SFadd prec emax).
Local Abbreviation sub := (SFsub prec emax).
Local Abbreviation mul := (SFmul prec emax).
Local Abbreviation div := (SFdiv prec emax).

Lemma sub_self_zn x : zero_or_nan (sub x x) = true.
Proof.
  destruct x as [s|s| |s m e]; try (destruct s; reflexivity);
    try reflexivity.
  unfold SFsub. rewrite Z.sub_diag. reflexivity.
Qed.

Lemma mul_zn_l x y : zero_or_nan x = true -> zero_or_nan (mul x y) = true.
Proof.
  destruct x as [s|s| |s m e], y as [s'|s'| |s' m' e'];
    try discriminate; reflexivity.
Qed.

Lemma mul_zn_r x y : zero_or_nan y = true -> zero_or_nan (mul x y) = true.
Proof.
  destruct x as [s|s| |s m e], y as [s'|s'| |s' m' e'];
    try discriminate; reflexivity.
Qed.

Lemma div_zn_l x y : zero_or_nan x = true -> zero_or_nan (div x y) = true.
Proof.
  destruct x as [s|s| |s m e], y as [s'|s'| |s' m' e'];
    try discriminate; reflexivity.
Qed.


Lemma SFcompare_finite_refl s m e :
  SFcompare (S754_finite s m e) (S754_finite s m e) = Some Eq.
Proof.
  cbn. rewrite Z.compare_refl, Pos.compare_cont_refl.
  destruct s; reflexivity.
Qed.

Lemma SFeqb_refl x : is_nan x = false -> SFeqb x x = true.
Proof.
  destruct x as [s|s| |s m e]; intros H; try discriminate.
  - reflexivity.
  - destruct s; reflexivity.
  - unfold SFeqb. rewrite SFcompare_finite_refl. reflexivity.
Qed.

(** Adding a zero changes nothing that [==] can see. *)
Lemma add_zn_l z x :
  zero_or_nan z = true -> is_nan (add z x) = true \/ SFeqb (add z x) x = true.
Proof.
  destruct z as [s|s| |s m e]; try discriminate; intros _.
  - destruct x as [s'|s'| |s' m' e'].
    + right. destruct s, s'; reflexivity.
    + right. destruct s'; reflexivity.
    + left. reflexivity.
    + right.
      change (add (S754_zero s) (S754_finite s' m' e'))
        with (S754_finite s' m' e').
      apply SFeqb_refl. reflexivity.
  - left. reflexivity.
Qed.

Lemma add_sub_zn z m :
  zero_or_nan z = true -> zero_or_nan (sub (add z m) m) = true.
Proof.
  destruct z as [s|s| |s m' e]; try discriminate; intros _.
  - destruct m as [s'|s'| |s' m' e'].
    + destruct s, s'; reflexivity.
    + destruct s'; reflexivity.
    + reflexivity.
    + change (add (S754_zero s) (S754_finite s' m' e'))
        with (S754_finite s' m' e').
      apply sub_self_zn.
  - reflexivity.
Qed.

Lemma nan_add_l x y : is_nan x = true -> is_nan (add x y) = true.
Proof. destruct x; try discriminate; reflexivity. Qed.

Lemma nan_add_r x y : is_nan y = true -> is_nan (add x y) = true.
Proof. destruct x, y; try discriminate; reflexivity. Qed.

Lemma nan_sub_l x y : is_nan x = true -> is_nan (sub x y) = true.
Proof. destruct x; try discriminate; reflexivity. Qed.

Lemma nan_mul_l x y : is_nan x = true -> is_nan (mul x y) = true.
Proof. destruct x; try discriminate; reflexivity. Qed.

Lemma nan_mul_r x y : is_nan y = true -> is_nan (mul x y) = true.
Proof. destruct x, y; try discriminate; reflexivity. Qed.

Lemma nan_div_l x y : is_nan x = true -> is_nan (div x y) = true.
Proof. destruct x; try discriminate; reflexivity. Qed.




End B64Arith.

(** ** Binary64: what rounding does to short sums *)

Section B64Rounding.

Import B64.

(** Sums and differences of doubles are doubles: the operations of
    [SpecFloat] are those of the kernel's floats, whose values are valid. *)
Lemma SFadd_valid x y : valid x -> valid y -> valid (SFadd prec emax x y).
Proof.
  intros Hx Hy. unfold valid in *.
  rewrite <- (FloatAxioms.Prim2SF_SF2Prim x Hx), <- (FloatAxioms.Prim2SF_SF2Prim y Hy).
  change (SFadd prec emax) with FloatAxioms.SF64add.
  rewrite <- FloatAxioms.add_spec. apply FloatAxioms.Prim2SF_valid.
Qed.

Lemma SFsub_valid x y : valid x -> valid y -> valid (SFsub prec emax x y).
Proof.
  intros Hx Hy. unfold valid in *.
  rewrite <- (FloatAxioms.Prim2SF_SF2Prim x Hx), <- (FloatAxioms.Prim2SF_SF2Prim y Hy).
  change (SFsub prec emax) with FloatAxioms.SF64sub.
  rewrite <- FloatAxioms.sub_spec. apply FloatAxioms.Prim2SF_valid.
Qed.

Lemma SFcompare_antisym x y c :
  SFcompare x y = Some c -> SFcompare y x = Some (CompOpp c).
Proof.
  destruct x as [s|s| |s m e], y as [s'|s'| |s' m' e']; cbn;
    try discriminate; intros H; inversion H; clear H;
    try (destruct s; reflexivity); try (destruct s'; reflexivity);
    try (destruct s, s'; reflexivity); try reflexivity.
  destruct s, s'; try reflexivity.
  - rewrite (Z.compare_antisym e e'). destruct (e ?= e')%Z; cbn; try reflexivity.
    rewrite (Pos.compare_cont_antisym m m' Eq). cbn.
    destruct (Pos.compare_cont Eq m' m); reflexivity.
  - rewrite (Z.compare_antisym e e'). destruct (e ?= e')%Z; cbn; try reflexivity.
    rewrite (Pos.compare_cont_antisym m m' Eq). reflexivity.
Qed.

Lemma digits2_size m : digits2_pos m = Pos.size m.
Proof. induction m; cbn; congruence. Qed.

Lemma digits2_bounds m :
  (2 ^ (Zpos (digits2_pos m) - 1) <= Zpos m < 2 ^ Zpos (digits2_pos m))%Z.
Proof.
  rewrite digits2_size.
  pose proof (Pos.size_gt m) as Hgt. pose proof (Pos.size_le m) as Hle.
  apply Pos2Z.pos_lt_pos in Hgt. apply Pos2Z.pos_le_pos in Hle.
  rewrite Pos2Z.inj_pow in Hgt, Hle.
  split; [|exact Hgt].
  change (Zpos m~0) with (2 * Zpos m)%Z in Hle.
  replace (Zpos (Pos.size m)) with (Z.succ (Zpos (Pos.size m) - 1))%Z in Hle by lia.
  rewrite Z.pow_succ_r in Hle by lia. lia.
Qed.

Lemma digits2_unique m d :
  (2 ^ (Zpos d - 1) <= Zpos m < 2 ^ Zpos d)%Z -> digits2_pos m = d.
Proof.
  intros [H1 H2]. destruct (digits2_bounds m) as [B1 B2].
  set (s := digits2_pos m) in *.
  assert (Zpos s <= Zpos d)%Z.
  { destruct (Z_le_gt_dec (Zpos s) (Zpos d)) as [L|G]; [exact L|exfalso].
    assert (2 ^ Zpos d <= 2 ^ (Zpos s - 1))%Z by (apply Z.pow_le_mono_r; lia). lia. }
  assert (Zpos d <= Zpos s)%Z.
  { destruct (Z_le_gt_dec (Zpos d) (Zpos s)) as [L|G]; [exact L|exfalso].
    assert (2 ^ Zpos s <= 2 ^ (Zpos d - 1))%Z by (apply Z.pow_le_mono_r; lia). lia. }
  apply Pos2Z.inj. lia.
Qed.

(** A mantissa of 53 digits at a representable exponent is not rounded. *)
Lemma binary_round_aux_exact sx m e :
  digits2_pos m = 53%positive -> (-1074 <= e <= 971)%Z ->
  binary_round_aux prec emax sx (Zpos m) e loc_Exact = S754_finite sx m e.
Proof.
  intros Hd He.
  unfold binary_round_aux.
  assert (Hs : shr_fexp prec emax (Zpos m) e loc_Exact
               = ({| shr_m := Zpos m; shr_r := false; shr_s := false |}, e)).
  { unfold shr_fexp. cbn [Zdigits2]. rewrite Hd.
    unfold fexp, emin, prec, emax.
    replace (Z.max (53 + e - 53) (3 - 1024 - 53) - e)%Z with 0%Z by lia.
    reflexivity. }
  rewrite Hs. cbn [shr_m loc_of_shr_record round_nearest_even].
  rewrite Hs. cbn [shr_m].
  unfold emax, prec.
  destruct (Z.leb_spec e (1024 - 53)); [reflexivity|lia].
Qed.

Lemma binary_round_aux_sign sx mx ex lx :
  match binary_round_aux prec emax sx mx ex lx with
  | S754_zero s | S754_infinity s | S754_finite s _ _ => s = sx
  | S754_nan => True
  end.
Proof.
  unfold binary_round_aux.
  destruct (shr_fexp prec emax mx ex lx) as [mrs' e'].
  destruct (shr_fexp prec emax _ e' loc_Exact) as [mrs'' e''].
  destruct (shr_m mrs''); try exact I; try reflexivity.
  destruct (Z.leb e'' (emax - prec)); reflexivity.
Qed.

Lemma shl_align_ge mx ex ex' : (ex <= ex')%Z -> shl_align mx ex ex' = (mx, ex).
Proof.
  intros H. unfold shl_align.
  destruct (ex' - ex)%Z eqn:E; try reflexivity. lia.
Qed.

Lemma shl_align_lt mx ex ex' :
  (ex' < ex)%Z ->
  shl_align mx ex ex' = (Pos.iter xO mx (Z.to_pos (ex - ex')), ex').
Proof.
  intros H. unfold shl_align.
  destruct (ex' - ex)%Z eqn:E; try lia.
  replace (ex - ex')%Z with (Zpos p) by lia. reflexivity.
Qed.

Lemma iter_xO_Z m d : Zpos (Pos.iter xO m d) = (Zpos m * 2 ^ Zpos d)%Z.
Proof.
  induction d as [|d IH] using Pos.peano_ind.
  - cbn. lia.
  - rewrite Pos.iter_succ, Pos2Z.inj_succ, Z.pow_succ_r by lia.
    change (Zpos (Pos.iter xO m d)~0) with (2 * Zpos (Pos.iter xO m d))%Z.
    rewrite IH. ring.
Qed.

(** Rounding a positive integer of at most 53 digits at an exponent in
    range: the mantissa is shifted to 53 digits, nothing is lost. *)
Lemma binary_round_small sx k e :
  (Zpos (digits2_pos k) < 53)%Z -> (-1000 <= e <= 900)%Z ->
  let d := (53 - Zpos (digits2_pos k))%Z in
  binary_round prec emax sx k e
  = S754_finite sx (Pos.iter xO k (Z.to_pos d)) (e - d).
Proof.
  intros Hd He d. unfold binary_round.
  assert (Hf : fexp prec emax (Zpos (digits2_pos k) + e) = (e - d)%Z).
  { unfold fexp, emin, prec, emax, d. lia. }
  rewrite Hf, shl_align_lt by (unfold d; lia).
  replace (e - (e - d))%Z with d by lia.
  apply binary_round_aux_exact; [|unfold d; lia].
  apply digits2_unique. rewrite iter_xO_Z.
  destruct (digits2_bounds k) as [B1 B2].
  set (s := Zpos (digits2_pos k)) in *.
  rewrite Z2Pos.id by (unfold d; lia).
  change (Zpos 53 - 1)%Z with 52%Z.
  replace 52%Z with ((s - 1) + d)%Z by (unfold d; lia).
  replace (Zpos 53) with (s + d)%Z by (unfold d; lia).
  rewrite !Z.pow_add_r by (unfold d, s; lia).
  assert (0 < 2 ^ d)%Z by (apply Z.pow_pos_nonneg; unfold d; lia).
  split; nia.
Qed.

Lemma binary_round_full sx k e :
  digits2_pos k = 53%positive -> (-1074 <= e <= 971)%Z ->
  binary_round prec emax sx k e = S754_finite sx k e.
Proof.
  intros Hd He. unfold binary_round. rewrite Hd.
  assert (Hf : fexp prec emax (Zpos 53 + e) = e).
  { unfold fexp, emin, prec, emax. lia. }
  rewrite Hf, shl_align_ge by lia.
  now apply binary_round_aux_exact.
Qed.

Lemma binary_round_sign sx mx ex :
  match binary_round prec emax sx mx ex with
  | S754_zero s | S754_infinity s | S754_finite s _ _ => s = sx
  | S754_nan => True
  end.
Proof.
  unfold binary_round.
  destruct (shl_align mx ex _) as [mz ez]. apply binary_round_aux_sign.
Qed.

End B64Rounding.

(** ** Binary64: the step of the second loop *)

Section B64Step.

Import B64.

Local Open Scope Z_scope.

Local Abbreviation mPI := 7074237752028456%positive.

Lemma SFleb_same_exp k q e :
  Z.pos k < Z.pos q ->
  SFleb (S754_finite false k e) (S754_finite false q e) = true.
Proof.
  intros H. unfold SFleb, SFcompare. rewrite Z.compare_refl.
  assert (Hc : Pos.compare_cont Eq k q = Lt) by exact H.
  rewrite Hc. reflexivity.
Qed.

Lemma SFleb_lt_exp k q e1 e2 :
  e1 < e2 -> SFleb (S754_finite false k e1) (S754_finite false q e2) = true.
Proof.
  intros H. unfold SFleb, SFcompare.
  assert (Hc : (e1 ?= e2) = Lt) by exact H.
  rewrite Hc. reflexivity.
Qed.

Lemma valid_finite_digits s m e :
  valid (S754_finite s m e) -> (-51 <= e)%Z ->
  digits2_pos m = 53%positive /\ (e <= 971)%Z.
Proof.
  unfold valid, valid_binary, bounded, canonical_mantissa, fexp, emin, prec, emax.
  intros H He. apply andb_true_iff in H. destruct H as [H1 H2].
  apply Z.eqb_eq in H1. apply Z.leb_le in H2.
  split; [|lia]. apply Pos2Z.inj. lia.
Qed.

Lemma le_of_sign x q e :
  match x with
  | S754_zero s | S754_infinity s | S754_finite s _ _ => s = true
  | S754_nan => True
  end ->
  is_nan x = true \/ SFleb x (S754_finite false q e) = true.
Proof.
  destruct x as [s|s| |s m e']; intros H; subst; auto.
Qed.

Lemma lt_neg_cases m e q eq :
  SFltb (S754_finite true m e) (S754_finite true q eq) = true ->
  eq < e \/ (e = eq /\ Zpos q < Zpos m).
Proof.
  intros Hlt.
  unfold SFltb, SFcompare in Hlt.
  destruct (Z.compare_spec e eq) as [E|E|E]; try discriminate.
  - right. split; [exact E|].
    destruct (Pos.compare_cont Eq m q) eqn:C; try discriminate.
    apply Pos.compare_gt_iff in C. lia.
  - left. exact E.
Qed.

Lemma SFadd_neg_pos m e q eq :
  SFadd prec emax (S754_finite true m e) (S754_finite false q eq)
  = binary_normalize prec emax
      (- Zpos (fst (shl_align m e (Z.min e eq)))
       + Zpos (fst (shl_align q eq (Z.min e eq)))) (Z.min e eq) false.
Proof. reflexivity. Qed.

(** The case [PI < |x| < 4]: the sum is exact. *)
Lemma add_TWOPI_case1 m :
  4503599627370496 <= Zpos m < 9007199254740992 ->
  Zpos mPI < Zpos m ->
  let y := SFadd prec emax (S754_finite true m (-51)) (S754_finite false mPI (-50)) in
  is_nan y = true \/ SFleb y (S754_finite false mPI (-51)) = true.
Proof.
  intros [B1 B2] Hm y. subst y.
  rewrite SFadd_neg_pos.
  rewrite Z.min_l by lia.
  rewrite shl_align_ge by lia. rewrite shl_align_lt by lia.
  cbn [fst].
  replace (Z.to_pos (-50 - -51)) with 1%positive by reflexivity.
  rewrite iter_xO_Z.
  change (2 ^ Z.pos 1) with 2.
  destruct (- Zpos m + Zpos mPI * 2) as [|k|k] eqn:Ek; try lia.
  unfold binary_normalize.
  rewrite binary_round_full.
  - right. apply SFleb_same_exp. lia.
  - apply digits2_unique.
    change (2 ^ (Zpos 53 - 1))%Z with 4503599627370496%Z.
    change (2 ^ Zpos 53)%Z with 9007199254740992%Z. lia.
  - lia.
Qed.

(** The case [4 <= |x| < 8]: the sum is exact, or not positive. *)
Lemma add_TWOPI_case2 m :
  4503599627370496 <= Zpos m < 9007199254740992 ->
  let y := SFadd prec emax (S754_finite true m (-50)) (S754_finite false mPI (-50)) in
  is_nan y = true \/ SFleb y (S754_finite false mPI (-51)) = true.
Proof.
  intros [B1 B2] y. subst y.
  rewrite SFadd_neg_pos.
  rewrite Z.min_l by lia.
  rewrite !shl_align_ge by lia.
  cbn [fst].
  destruct (- Zpos m + Zpos mPI) as [|k|k] eqn:Ek.
  - right. reflexivity.
  - unfold binary_normalize.
    assert (Hk : Zpos k <= 2570638124657960) by lia.
    assert (Hdk : Zpos (digits2_pos k) <= 52).
    { destruct (digits2_bounds k) as [K1 K2].
      destruct (Z_le_gt_dec (Zpos (digits2_pos k)) 52) as [L|G]; [exact L|exfalso].
      assert (H : 2 ^ 52 <= 2 ^ (Zpos (digits2_pos k) - 1))
        by (apply Z.pow_le_mono_r; lia).
      change (2 ^ 52) with 4503599627370496 in H. lia. }
    rewrite binary_round_small by lia.
    right.
    destruct (Z.eq_dec (Zpos (digits2_pos k)) 52) as [E|E].
    + rewrite E.
      replace (Z.to_pos (53 - 52)) with 1%positive by reflexivity.
      replace (-50 - (53 - 52)) with (-51) by reflexivity.
      apply SFleb_same_exp. rewrite iter_xO_Z.
      change (2 ^ Z.pos 1) with 2. lia.
    + apply SFleb_lt_exp. lia.
  - apply le_of_sign. unfold binary_normalize.
    apply (binary_round_sign true k (-50)).
Qed.

(** The case [8 <= |x|]: the sum is negative. *)
Lemma add_TWOPI_case3 m e :
  4503599627370496 <= Zpos m -> -50 < e ->
  let y := SFadd prec emax (S754_finite true m e) (S754_finite false mPI (-50)) in
  is_nan y = true \/ SFleb y (S754_finite false mPI (-51)) = true.
Proof.
  intros B1 He y. subst y.
  rewrite SFadd_neg_pos.
  rewrite Z.min_r by lia.
  rewrite (shl_align_ge mPI) by lia. rewrite shl_align_lt by lia.
  cbn [fst].
  assert (Hbig : 2 * Zpos m <= Zpos (Pos.iter xO m (Z.to_pos (e - -50)))).
  { rewrite iter_xO_Z, Z2Pos.id by lia.
    assert (H : 2 ^ 1 <= 2 ^ (e - -50)) by (apply Z.pow_le_mono_r; lia).
    change (2 ^ 1) with 2 in H. nia. }
  destruct (- Zpos (Pos.iter xO m (Z.to_pos (e - -50))) + Zpos mPI)
    as [|k|k] eqn:Ek; try lia.
  apply le_of_sign. unfold binary_normalize.
  apply (binary_round_sign true k (-50)).
Qed.

(** The step of the second loop keeps [dlon <= PI]. *)
Lemma add_TWOPI_le_PI x :
  valid x ->
  SFltb x (S754_finite true mPI (-51)) = true ->
  let y := SFadd prec emax x (S754_finite false mPI (-50)) in
  is_nan y = true \/ SFleb y (S754_finite false mPI (-51)) = true.
Proof.
  intros Hv Hlt.
  destruct x as [s|s| |s m e]; try discriminate.
  - destruct s; [right; reflexivity|discriminate].
  - destruct s; [|discriminate].
    apply lt_neg_cases in Hlt.
    destruct (valid_finite_digits _ _ _ Hv) as [Hd He']; [lia|].
    destruct (digits2_bounds m) as [B1 B2]. rewrite Hd in B1, B2.
    change (2 ^ (Zpos 53 - 1)) with 4503599627370496 in B1.
    change (2 ^ Zpos 53) with 9007199254740992 in B2.
    destruct Hlt as [He|[He Hm]].
    + destruct (Z.eq_dec e (-50)) as [E|E].
      * subst e. apply add_TWOPI_case2. lia.
      * apply add_TWOPI_case3; lia.
    + subst e. apply add_TWOPI_case1; lia.
Qed.

Lemma shr_1_nonneg mrs : 0 <= shr_m mrs -> 0 <= shr_m (shr_1 mrs).
Proof.
  destruct mrs as [m r s]. cbn [shr_m]. intros H.
  destruct m as [|p|p]; [cbn; lia| |lia].
  destruct p; cbn; lia.
Qed.

Lemma iter_pos_shr_1_nonneg n mrs :
  0 <= shr_m mrs -> 0 <= shr_m (iter_pos shr_1 n mrs).
Proof.
  revert mrs. induction n as [n IH|n IH|]; intros mrs H; cbn [iter_pos].
  - apply IH, IH, shr_1_nonneg, H.
  - apply IH, IH, H.
  - apply shr_1_nonneg, H.
Qed.

Lemma shr_fexp_nonneg m e l :
  0 <= m -> 0 <= shr_m (fst (shr_fexp prec emax m e l)).
Proof.
  intros H. unfold shr_fexp, shr.
  assert (H0 : 0 <= shr_m (shr_record_of_loc m l))
    by (destruct l as [|[]]; exact H).
  destruct (fexp prec emax (Zdigits2 m + e) - e); cbn [fst]; try exact H0.
  apply iter_pos_shr_1_nonneg, H0.
Qed.

Lemma round_nearest_even_nonneg m l : 0 <= m -> 0 <= round_nearest_even m l.
Proof.
  intros H. destruct l as [|[]]; cbn [round_nearest_even]; try lia.
  destruct (Z.even m); lia.
Qed.

Lemma binary_round_aux_not_nan sx m e l :
  0 <= m -> is_nan (binary_round_aux prec emax sx m e l) = false.
Proof.
  intros H. unfold binary_round_aux.
  pose proof (shr_fexp_nonneg m e l H) as H1.
  destruct (shr_fexp prec emax m e l) as [mrs' e']. cbn [fst] in H1.
  pose proof (shr_fexp_nonneg _ e' loc_Exact
                (round_nearest_even_nonneg _ (loc_of_shr_record mrs') H1)) as H2.
  destruct (shr_fexp prec emax _ e' loc_Exact) as [mrs'' e'']. cbn [fst] in H2.
  destruct (shr_m mrs''); try reflexivity; [|lia].
  destruct (e'' <=? emax - prec); reflexivity.
Qed.

Lemma binary_normalize_not_nan m e sz :
  is_nan (binary_normalize prec emax m e sz) = false.
Proof.
  destruct m as [|p|p]; cbn [binary_normalize]; try reflexivity;
    unfold binary_round; destruct (shl_align p e _) as [mz ez];
    apply binary_round_aux_not_nan; lia.
Qed.

(** Adding or subtracting a finite number cannot produce NaN from a number. *)
Lemma SFsub_finite_not_nan x y :
  is_nan x = false -> is_finite y = true ->
  is_nan (SFsub prec emax x y) = false.
Proof.
  destruct x as [s|s| |s m e], y as [s'|s'| |s' m' e']; try discriminate;
    intros _ _; try reflexivity.
  - destruct s, s'; reflexivity.
  - apply binary_normalize_not_nan.
Qed.

Lemma SFadd_finite_not_nan x y :
  is_nan x = false -> is_finite y = true ->
  is_nan (SFadd prec emax x y) = false.
Proof.
  destruct x as [s|s| |s m e], y as [s'|s'| |s' m' e']; try discriminate;
    intros _ _; try reflexivity.
  - destruct s, s'; reflexivity.
  - apply binary_normalize_not_nan.
Qed.

Lemma SFltb_false x y :
  SFltb x y = false -> is_nan x = false -> is_nan y = false -> SFleb y x = true.
Proof.
  unfold SFltb, SFleb. intros H Hx Hy.
  destruct (SFcompare x y) as [c|] eqn:E.
  - rewrite (SFcompare_antisym _ _ _ E). destruct c; try reflexivity. discriminate.
  - destruct x, y; try discriminate.
Qed.

End B64Step.

(** ** Binary64: the loops of [geod_tm], and [geod_tm] on the central
    meridian *)

Section B64Forward.

Import B64.

Variables sin64 cos64 : spec_float -> spec_float.

Let D64 : Double spec_float := Binary64 sin64 cos64.
Local Existing Instance D64.

Lemma PI_b64 : Nztm.PI = S754_finite false 7074237752028456 (-51).
Proof. vm_compute. reflexivity. Qed.

Lemma TWOPI_b64 : Nztm.TWOPI = S754_finite false 7074237752028456 (-50).
Proof. vm_compute. reflexivity. Qed.

(** The first loop leaves a number that is at most [PI]. *)
Lemma while_gt_PI_b64 (fuel : nat) (x r : spec_float) :
  valid x -> is_nan x = false ->
  Nztm.while_gt_PI fuel x = Some r ->
  valid r /\ is_nan r = false /\ SFleb r Nztm.PI = true.
Proof.
  revert x. induction fuel as [|fuel IH]; intros x Hv Hn H; [discriminate|].
  cbn [Nztm.while_gt_PI] in H.
  destruct (dlt Nztm.PI x) eqn:E.
  - apply IH in H; [exact H| |].
    + apply SFsub_valid; [exact Hv|]. rewrite TWOPI_b64. reflexivity.
    + apply SFsub_finite_not_nan; [exact Hn|]. rewrite TWOPI_b64. reflexivity.
  - inversion H; subst r. split; [exact Hv|]. split; [exact Hn|].
    apply SFltb_false; [exact E| |exact Hn].
    rewrite PI_b64. reflexivity.
Qed.

(** The second loop keeps it so and leaves it at least [-PI]. *)
Lemma while_lt_mPI_b64 (fuel : nat) (x r : spec_float) :
  valid x -> is_nan x = false -> SFleb x Nztm.PI = true ->
  Nztm.while_lt_mPI fuel x = Some r ->
  SFleb (dopp Nztm.PI) r = true /\ SFleb r Nztm.PI = true.
Proof.
  revert x. induction fuel as [|fuel IH]; intros x Hv Hn Hle H; [discriminate|].
  cbn [Nztm.while_lt_mPI] in H.
  destruct (dlt x (dopp Nztm.PI)) eqn:E.
  - assert (Hn' : is_nan (dadd x Nztm.TWOPI) = false).
    { apply SFadd_finite_not_nan; [exact Hn|]. rewrite TWOPI_b64. reflexivity. }
    apply IH in H; [exact H| |exact Hn'|].
    + apply SFadd_valid; [exact Hv|]. rewrite TWOPI_b64. reflexivity.
    + rewrite PI_b64 in *.
      destruct (add_TWOPI_le_PI x Hv E) as [Hnan|Hle'].
      * rewrite TWOPI_b64 in Hn'. cbn [dadd D64 Binary64] in Hn'.
        rewrite Hn' in Hnan. discriminate.
      * rewrite TWOPI_b64. exact Hle'.
  - inversion H; subst r. split; [|exact Hle].
    apply SFltb_false; [exact E|exact Hn|].
    rewrite PI_b64. reflexivity.
Qed.

(** For finite doubles, what the loops leave, if they finish, lies in
    [[-PI, PI]]. *)
Lemma geod_tm_dlon_range_b64 (fuel : nat) (cm ln d : spec_float) :
  valid cm -> valid ln -> is_finite cm = true -> is_finite ln = true ->
  Nztm.geod_tm_dlon fuel cm ln = Some d ->
  SFleb (dopp Nztm.PI) d = true /\ SFleb d Nztm.PI = true.
Proof.
  intros Hvc Hvl Hfc Hfl H. unfold Nztm.geod_tm_dlon in H.
  destruct (Nztm.while_gt_PI fuel (dsub ln cm)) as [r|] eqn:E1; [|discriminate].
  apply while_gt_PI_b64 in E1.
  - destruct E1 as (Hv & Hn & Hle). now apply (while_lt_mPI_b64 fuel r).
  - now apply SFsub_valid.
  - apply SFsub_finite_not_nan; [|exact Hfc].
    destruct ln; try discriminate; reflexivity.
Qed.

(** A zero or NaN passes both loops untouched. *)
Lemma geod_tm_dlon_zn (n : nat) (cm ln : spec_float) :
  zero_or_nan (dsub ln cm) = true ->
  Nztm.geod_tm_dlon (S n) cm ln = Some (dsub ln cm).
Proof.
  intros H. unfold Nztm.geod_tm_dlon, Nztm.while_gt_PI, Nztm.while_lt_mPI.
  rewrite PI_b64.
  destruct (dsub ln cm) as [s|s| |s m e]; try discriminate; reflexivity.
Qed.








End B64Forward.

(** ** Binary64: degenerate projections *)

Section B64Degenerate.

Import B64.



End B64Degenerate.

(** ** Binary64: a longitude the first loop never brings down *)

Section B64Divergence.

Import B64.

Variables sin64 cos64 : spec_float -> spec_float.

Let D64 : Double spec_float := Binary64 sin64 cos64.
Local Existing Instance D64.

(** [1e17] is a double, and [TWOPI] is less than half the gap to the
    doubles next to it: the subtraction rounds back. *)
Lemma huge_longitude_b64 :
  Inputs.huge_longitude = S754_finite false 6250000000000000 4 /\
  dlt Nztm.PI Inputs.huge_longitude = true /\
  dsub Inputs.huge_longitude Nztm.TWOPI = Inputs.huge_longitude.
Proof. repeat split; vm_compute; reflexivity. Qed.

Lemma while_gt_PI_huge (fuel : nat) :
  Nztm.while_gt_PI fuel Inputs.huge_longitude = None.
Proof.
  destruct huge_longitude_b64 as (_ & Hgt & Hsub).
  induction fuel as [|fuel IH]; [reflexivity|].
  cbn [Nztm.while_gt_PI]. rewrite Hgt, Hsub. exact IH.
Qed.

(** The NZTM central meridian, about 3.02 radians, is absorbed too. *)
Lemma nztm_dlon_huge :
  dsub Inputs.huge_longitude
       (Nztm.meridian
          (Nztm.nztm_projection (NztmH.get_nztm_projection Nztm.globals_init)))
  = Inputs.huge_longitude.
Proof.
  unfold NztmH.get_nztm_projection, Nztm.get_nztm_projection.
  cbn [Nztm.initiallized Nztm.globals_init Z.eqb Nztm.nztm_projection].
  unfold Nztm.define_tmprojection, Nztm.set_om.
  cbn [Nztm.meridian].
  vm_compute. reflexivity.
Qed.

(** C8, at the failing input.  Binary64, whatever [sin] and [cos] return:
    the first call [geod_nztm( lt, 1e17, &n, &e )] of a process does not
    return, for any latitude; no amount of fuel lets the first loop of
    [geod_tm] finish. *)
Theorem geod_nztm_diverges_b64 (fuel : nat) (lt : spec_float) :
  NztmH.geod_nztm fuel Nztm.globals_init lt Inputs.huge_longitude = None.
Proof.
  unfold NztmH.geod_nztm, Nztm.geod_nztm, Nztm.geod_tm, Nztm.geod_tm_dlon.
  fold (NztmH.get_nztm_projection (D := D64)).
  rewrite nztm_dlon_huge, while_gt_PI_huge. reflexivity.
Qed.

(** The same at [+infinity], where no wider intermediate format could
    help: [inf - TWOPI] is [inf] in every IEEE format. *)
Lemma while_gt_PI_infinity (fuel : nat) :
  Nztm.while_gt_PI fuel (S754_infinity false) = None.
Proof.
  induction fuel as [|fuel IH]; [reflexivity|].
  cbn [Nztm.while_gt_PI].
  replace (dlt Nztm.PI (S754_infinity false)) with true
    by (vm_compute; reflexivity).
  replace (dsub (S754_infinity false) Nztm.TWOPI) with (S754_infinity false)
    by (vm_compute; reflexivity).
  exact IH.
Qed.

(** X3.  Binary64: the first call [geod_nztm( lt, HUGE_VAL, &n, &e )] of a
    process does not return either. *)
Theorem geod_nztm_diverges_infinity (fuel : nat) (lt : spec_float) :
  NztmH.geod_nztm fuel Nztm.globals_init lt (S754_infinity false) = None.
Proof.
  unfold NztmH.geod_nztm, Nztm.geod_nztm, Nztm.geod_tm, Nztm.geod_tm_dlon.
  fold (NztmH.get_nztm_projection (D := D64)).
  replace (dsub (S754_infinity false)
             (Nztm.meridian
                (Nztm.nztm_projection
                   (NztmH.get_nztm_projection Nztm.globals_init))))
    with (S754_infinity false).
  - rewrite while_gt_PI_infinity. reflexivity.
  - unfold NztmH.get_nztm_projection, Nztm.get_nztm_projection.
    cbn [Nztm.initiallized Nztm.globals_init Z.eqb Nztm.nztm_projection].
    unfold Nztm.define_tmprojection, Nztm.set_om.
    cbn [Nztm.meridian].
    vm_compute. reflexivity.
Qed.

End B64Divergence.

(** ** The range of the normalised difference *)

Section LowerEnd.

(** C6, counterexample: for [cm = 0.0] and [ln = -PI] (the literal
    [-3.1415926535898]) neither loop changes [dlon]; it stays [-PI], which
    is not greater than [-PI].  So it is in binary64, and so it is in
    exact arithmetic. *)
Lemma geod_tm_dlon_minus_PI :
  (forall sin64 cos64 : spec_float -> spec_float,
     let D64 := Binary64 sin64 cos64 in
     Nztm.geod_tm_dlon (D := D64) 1 (lit 0.0) (dopp Nztm.PI)
     = Some (dopp Nztm.PI) /\
     dlt (dopp Nztm.PI) (dopp Nztm.PI) = false) /\
  (exists d : R,
     Nztm.geod_tm_dlon (D := Exact) 1 0%R (- Nztm.PI (D := Exact))%R
     = Some d /\
     d = (- Nztm.PI (D := Exact))%R /\
     ~ (- Nztm.PI (D := Exact) < d)%R).
Proof.
  split.
  - intros sin64 cos64 D64. split; vm_compute; reflexivity.
  - pose proof PI_pos as Hpi.
    exists (- Nztm.PI (D := Exact) - 0)%R.
    unfold Nztm.geod_tm_dlon, Nztm.while_gt_PI, Nztm.while_lt_mPI.
    cbn [dsub dopp Exact].
    set (pi := Nztm.PI (D := Exact)) in *.
    assert (E1 : dlt (Double := Exact) pi (- pi - 0)%R = false)
      by (apply dlt_exact_false; lra).
    assert (E2 : dlt (Double := Exact) (- pi - 0)%R (- pi)%R = false)
      by (apply dlt_exact_false; lra).
    rewrite E1, E2. repeat split; lra.
Qed.

(** C6 (amended).  The normalised difference [dlon = ln - cm] lies in
    the closed interval [[-PI, PI]], for the program's [PI]
    (3.1415926535898).  In binary64: for all finite doubles [ln] and [cm],
    whenever the two loops finish.  In exact arithmetic: for all reals,
    and there the loops always finish. *)
Theorem geod_tm_dlon_range :
  (forall (sin64 cos64 : spec_float -> spec_float) (fuel : nat)
          (cm ln d : spec_float),
     let D64 := Binary64 sin64 cos64 in
     B64.valid cm -> B64.valid ln ->
     B64.is_finite cm = true -> B64.is_finite ln = true ->
     Nztm.geod_tm_dlon (D := D64) fuel cm ln = Some d ->
     SFleb (dopp Nztm.PI) d = true /\ SFleb d Nztm.PI = true) /\
  (forall cm ln : R,
     exists (fuel : nat) (d : R),
       (forall fuel', (fuel <= fuel')%nat ->
                      Nztm.geod_tm_dlon (D := Exact) fuel' cm ln = Some d) /\
       (- Nztm.PI (D := Exact) <= d <= Nztm.PI (D := Exact))%R).
Proof.
  split.
  - intros sin64 cos64 fuel cm ln d D64.
    apply geod_tm_dlon_range_b64.
  - exact geod_tm_dlon_range_exact.
Qed.

Lemma geod_tm_dlon_range_witness :
  let D64 := Binary64 (fun x => x) (fun x => x) in
  let d := S754_finite false 6456492766959296 (-53) in
  Nztm.geod_tm_dlon (D := D64) 3 (B64.of_Q 3.0) (B64.of_Q 10.0) = Some d /\
  SFleb (dopp (Nztm.PI (D := D64))) d = true /\
  SFleb d (Nztm.PI (D := D64)) = true.
Proof.
  cbv zeta. split; [vm_compute; reflexivity|].
  apply (proj1 geod_tm_dlon_range (fun x => x) (fun x => x) 3%nat
           (B64.of_Q 3.0) (B64.of_Q 10.0));
    vm_compute; reflexivity.
Defined.

End LowerEnd.

(** ** The static projection is built once *)

Section Once.

Context {T : Type} {D : Double T}.

Variables NZTM_A NZTM_RF NZTM_CM NZTM_SF NZTM_OLAT NZTM_FE NZTM_FN : T.

Let get : Nztm.globals T -> Nztm.globals T :=
  Nztm.get_nztm_projection
    NZTM_A NZTM_RF NZTM_CM NZTM_SF NZTM_OLAT NZTM_FE NZTM_FN.

Lemma get_nztm_projection_initiallized (g : Nztm.globals T) :
  Nztm.initiallized g <> 0%Z -> get g = g.
Proof.
  intros H. unfold get, Nztm.get_nztm_projection.
  destruct (Z.eqb_spec (Nztm.initiallized g) 0) as [E|E];
    [contradiction|reflexivity].
Qed.

Lemma get_nztm_projection_iter (n : nat) (g : Nztm.globals T) :
  Nztm.initiallized g <> 0%Z -> Nat.iter n get g = g.
Proof.
  intros H. induction n as [|n IH]; [reflexivity|].
  rewrite Nat.iter_succ, IH. now apply get_nztm_projection_initiallized.
Qed.

(** C9.  From the zeroed statics, the first call of [get_nztm_projection]
    sets [initiallized] and builds the projection, once ([defines] is 1);
    any number [n] of further calls leaves every static as it is, so the
    projection they return is the same and [defines] stays 1; a conversion
    changes the statics only through that call; and
    [define_tmprojection] yields the same structure from the same
    constants whatever the structure held before. *)
Theorem get_nztm_projection_once (n : nat) :
  let g1 := get Nztm.globals_init in
  Nztm.initiallized g1 = 1%Z /\
  Nztm.defines g1 = 1%nat /\
  Nat.iter n get g1 = g1 /\
  (forall g north east,
     fst (Nztm.nztm_geod NZTM_A NZTM_RF NZTM_CM NZTM_SF NZTM_OLAT NZTM_FE
            NZTM_FN g north east) = get g) /\
  (forall fuel g lt ln g' r,
     Nztm.geod_nztm NZTM_A NZTM_RF NZTM_CM NZTM_SF NZTM_OLAT NZTM_FE
       NZTM_FN fuel g lt ln = Some (g', r) -> g' = get g) /\
  (forall tm,
     Nztm.define_tmprojection tm NZTM_A NZTM_RF
       (ddiv NZTM_CM Nztm.rad2deg) NZTM_SF (ddiv NZTM_OLAT Nztm.rad2deg)
       NZTM_FE NZTM_FN (lit 1.0)
     = Nztm.nztm_projection g1).
Proof.
  intros g1.
  assert (H1 : Nztm.initiallized g1 = 1%Z) by reflexivity.
  split; [exact H1|]. split; [reflexivity|]. split; [|split; [|split]].
  - apply get_nztm_projection_iter. rewrite H1. discriminate.
  - intros g north east. unfold Nztm.nztm_geod. fold get.
    destruct (Nztm.tm_geod _ _ _). reflexivity.
  - intros fuel g lt ln g' r. unfold Nztm.geod_nztm. fold get.
    destruct (Nztm.geod_tm _ _ _ _) as [[e nn]|]; [|discriminate].
    intros H. inversion H. reflexivity.
  - intros tm. reflexivity.
Qed.

End Once.

(** * Further properties of the two conversions *)

(** ** Exact arithmetic: symmetry of [geod_tm] about the central meridian *)

Section ExactMirror.

Local Existing Instance Exact.
Local Open Scope R_scope.









End ExactMirror.

(** ** Exact arithmetic: symmetry of [geod_tm] about the equator *)

Section ExactLatitude.

Local Existing Instance Exact.
Local Open Scope R_scope.








End ExactLatitude.

(** ** Exact arithmetic: the inverse conversion [tm_geod] *)

Section ExactInverse.

Local Existing Instance Exact.
Local Open Scope R_scope.











End ExactInverse.

(** ** Exact arithmetic: round trips on the central meridian of a sphere *)

Section ExactRoundTrip.

Local Existing Instance Exact.
Local Open Scope R_scope.










End ExactRoundTrip.

(** ** Exact arithmetic: the false origin through [nztm_geod] and
    [geod_nztm] *)

Section ExactPreset.

Local Existing Instance Exact.
Local Open Scope R_scope.

(** The constants of [nztm.h], whatever they are, with [NZTM_OLAT] zero. *)
Variables NZTM_A NZTM_RF NZTM_CM NZTM_SF NZTM_FE NZTM_FN : R.

Let get : Nztm.globals R -> Nztm.globals R :=
  Nztm.get_nztm_projection NZTM_A NZTM_RF NZTM_CM NZTM_SF 0 NZTM_FE NZTM_FN.




End ExactPreset.

(** ** Binary64: NaN through the two conversions *)

Section B64ArithMore.

Import B64.

Local Abbreviation add := (SFadd prec emax).
Local Abbreviation sub := (SFsub prec emax).

Lemma nan_sub_r x y : is_nan y = true -> is_nan (sub x y) = true.
Proof. destruct x, y; try discriminate; reflexivity. Qed.

Lemma add_zn_r x z :
  zero_or_nan z = true -> is_nan (add x z) = true \/ SFeqb (add x z) x = true.
Proof.
  destruct z as [s|s| |s m e]; try discriminate; intros _.
  - destruct x as [s'|s'| |s' m' e'].
    + right. destruct s, s'; reflexivity.
    + right. destruct s'; reflexivity.
    + left. reflexivity.
    + right.
      change (add (S754_finite s' m' e') (S754_zero s))
        with (S754_finite s' m' e').
      apply SFeqb_refl. reflexivity.
  - left. destruct x; reflexivity.
Qed.

Lemma sub_zn_r x z :
  zero_or_nan z = true -> is_nan (sub x z) = true \/ SFeqb (sub x z) x = true.
Proof.
  destruct z as [s|s| |s m e]; try discriminate; intros _.
  - destruct x as [s'|s'| |s' m' e'].
    + right. destruct s, s'; reflexivity.
    + right. destruct s'; reflexivity.
    + left. reflexivity.
    + right.
      change (sub (S754_finite s' m' e') (S754_zero s))
        with (S754_finite s' m' e').
      apply SFeqb_refl. reflexivity.
  - left. destruct x; reflexivity.
Qed.

Lemma is_nan_eq x : is_nan x = true -> x = S754_nan.
Proof. destruct x; try discriminate; reflexivity. Qed.

End B64ArithMore.

Section B64Nan.

Import B64.

Variables sin64 cos64 : spec_float -> spec_float.

Let D64 : Double spec_float := Binary64 sin64 cos64.
Local Existing Instance D64.

Lemma geod_tm_grid_nan_dlon (tm : Nztm.tmprojection spec_float)
    (lt : spec_float) :
  Nztm.geod_tm_grid tm S754_nan lt = (S754_nan, S754_nan).
Proof.
  unfold Nztm.geod_tm_grid. cbv zeta. f_equal; apply is_nan_eq.
  - apply nan_add_l, nan_div_l, nan_mul_l, nan_mul_l, nan_mul_r. reflexivity.
  - apply nan_add_l, nan_div_l, nan_mul_l, nan_sub_l, nan_add_l, nan_mul_r,
      nan_mul_r, nan_mul_l, nan_mul_r. reflexivity.
Qed.

Lemma northing_nan_lt (tm : Nztm.tmprojection spec_float) (d : spec_float) :
  snd (Nztm.geod_tm_grid tm d S754_nan) = S754_nan.
Proof.
  unfold Nztm.geod_tm_grid. cbv zeta. cbn [snd]. apply is_nan_eq.
  apply nan_add_l, nan_div_l, nan_mul_l, nan_sub_l, nan_add_r.
  unfold Nztm.meridian_arc. cbv zeta.
  apply nan_mul_r, nan_sub_l, nan_add_l, nan_sub_l, nan_mul_r. reflexivity.
Qed.

(** X14.  Binary64, whatever [sin] and [cos] return: for every projection
    and latitude, [geod_tm] at a NaN longitude returns at once (both loop
    conditions are false) and both coordinates are NaN. *)
Theorem geod_tm_nan_longitude_b64 (tm : Nztm.tmprojection spec_float)
    (lt : spec_float) (fuel : nat) :
  Nztm.geod_tm (S fuel) tm S754_nan lt = Some (S754_nan, S754_nan).
Proof.
  unfold Nztm.geod_tm.
  rewrite (geod_tm_dlon_zn sin64 cos64 fuel) by reflexivity.
  change (dsub S754_nan (Nztm.meridian tm)) with S754_nan.
  rewrite geod_tm_grid_nan_dlon. reflexivity.
Qed.

(** X15.  Binary64, whatever [sin] and [cos] return: for every projection
    and longitude, whenever [geod_tm] returns at a NaN latitude the
    northing is NaN. *)
Theorem geod_tm_nan_latitude_b64 (tm : Nztm.tmprojection spec_float)
    (ln : spec_float) (fuel : nat) (r : spec_float * spec_float) :
  Nztm.geod_tm fuel tm ln S754_nan = Some r -> snd r = S754_nan.
Proof.
  unfold Nztm.geod_tm.
  destruct (Nztm.geod_tm_dlon fuel (Nztm.meridian tm) ln) as [d|];
    [|discriminate].
  intros H. inversion H. apply northing_nan_lt.
Qed.

Lemma foot_point_lat_nan (tm : Nztm.tmprojection spec_float) :
  Nztm.foot_point_lat tm S754_nan = S754_nan.
Proof.
  unfold Nztm.foot_point_lat. cbv zeta. apply is_nan_eq.
  apply nan_add_l, nan_add_l, nan_add_l, nan_add_l. reflexivity.
Qed.

(** X16.  Binary64, whatever [sin] and [cos] return: for every
    projection, [tm_geod] at a NaN easting returns NaN for longitude and
    latitude, and at a NaN northing it returns NaN for the latitude. *)
Theorem tm_geod_nan_b64 (tm : Nztm.tmprojection spec_float)
    (x : spec_float) :
  Nztm.tm_geod tm S754_nan x = (S754_nan, S754_nan) /\
  snd (Nztm.tm_geod tm x S754_nan) = S754_nan.
Proof.
  split.
  - unfold Nztm.tm_geod. cbv zeta. f_equal; apply is_nan_eq.
    + apply nan_sub_r, nan_mul_l, nan_div_l, nan_div_l, nan_mul_l.
      reflexivity.
    + apply nan_add_r, nan_mul_l, nan_div_l, nan_mul_r, nan_mul_l.
      reflexivity.
  - unfold Nztm.tm_geod. cbv zeta. cbn [snd]. apply is_nan_eq.
    apply nan_add_l.
    change (dadd (ddiv (dmul (dsub S754_nan (Nztm.falsen tm)) (Nztm.utom tm))
                    (Nztm.scalef tm)) (Nztm.om tm)) with S754_nan.
    rewrite foot_point_lat_nan. reflexivity.
Qed.

(** X17.  Binary64, whatever [sin] and [cos] return: for every projection
    and northing, [tm_geod] at the false easting returns a longitude that
    is NaN or compares equal ([==]) to the central meridian, and a
    latitude that is NaN or compares equal to the foot-point latitude:
    [ce - fe] is a zero and is a factor of both corrections. *)
Theorem tm_geod_false_easting_b64 (tm : Nztm.tmprojection spec_float)
    (cn : spec_float) :
  let r := Nztm.tm_geod tm (Nztm.falsee tm) cn in
  let fphi :=
    Nztm.foot_point_lat tm
      (dadd (ddiv (dmul (dsub cn (Nztm.falsen tm)) (Nztm.utom tm))
                  (Nztm.scalef tm)) (Nztm.om tm)) in
  (is_nan (fst r) = true \/ SFeqb (fst r) (Nztm.meridian tm) = true) /\
  (is_nan (snd r) = true \/ SFeqb (snd r) fphi = true).
Proof.
  pose proof (sub_self_zn (Nztm.falsee tm)) as Hz.
  unfold Nztm.tm_geod. cbv zeta. cbn [fst snd]. split.
  - apply sub_zn_r, mul_zn_l, div_zn_l, div_zn_l, mul_zn_l, Hz.
  - apply add_zn_r, mul_zn_l, div_zn_l, mul_zn_r, mul_zn_l, Hz.
Qed.

(** Where [sin lt] is a zero, [t] is a zero or NaN and is a factor of the
    northing correction. *)
Lemma northing_zn_sin (tm : Nztm.tmprojection spec_float)
    (dlon lt : spec_float) :
  zero_or_nan (sin64 lt) = true ->
  Nztm.om tm = Nztm.meridian_arc tm lt ->
  let cn := snd (Nztm.geod_tm_grid tm dlon lt) in
  is_nan cn = true \/ SFeqb cn (Nztm.falsen tm) = true.
Proof.
  intros H Hom. unfold Nztm.geod_tm_grid. cbv zeta. cbn [snd].
  rewrite Hom.
  apply add_zn_l, div_zn_l, mul_zn_l, add_sub_zn, mul_zn_l, mul_zn_r,
    div_zn_l, H.
Qed.

(** X18.  Binary64, at an origin latitude [lto] where [sin] returns a
    zero (as a conforming [sin] does at [0.0], the equator): for every
    projection built by [define_tmprojection] with that origin latitude
    and every longitude, whenever [geod_tm] returns at latitude [lto] the
    northing is NaN or compares equal ([==]) to the false northing. *)
Theorem geod_tm_equator_b64 (tm0 : Nztm.tmprojection spec_float)
    (a rf cm sf lto fe fn utom ln : spec_float) (fuel : nat)
    (r : spec_float * spec_float) :
  let P := Nztm.define_tmprojection tm0 a rf cm sf lto fe fn utom in
  is_zero (sin64 lto) = true ->
  Nztm.geod_tm fuel P ln lto = Some r ->
  is_nan (snd r) = true \/ SFeqb (snd r) fn = true.
Proof.
  intros P Hs. unfold Nztm.geod_tm.
  destruct (Nztm.geod_tm_dlon fuel (Nztm.meridian P) ln) as [d|];
    [|discriminate].
  intros H. inversion H.
  apply (northing_zn_sin P d lto); [|reflexivity].
  unfold zero_or_nan. rewrite Hs. reflexivity.
Qed.

End B64Nan.

Section B64NanExamples.

Import B64.

Lemma geod_tm_nan_latitude_b64_witness :
  let D64 := Binary64 Inputs.sin_id Inputs.cos_one in
  let P := Inputs.grs80 (D := D64) in
  Nztm.geod_tm (D := D64) 1 P (of_Q 1.0) S754_nan
  = Some (S754_nan, S754_nan) /\
  snd (S754_nan, S754_nan) = S754_nan.
Proof.
  cbv zeta. split; [vm_compute; reflexivity|].
  apply (geod_tm_nan_latitude_b64 Inputs.sin_id Inputs.cos_one
           (Inputs.grs80 (D := Binary64 Inputs.sin_id Inputs.cos_one))
           (of_Q 1.0) 1).
  vm_compute. reflexivity.
Defined.

Lemma geod_tm_equator_b64_witness :
  let D64 := Binary64 Inputs.sin_id Inputs.cos_one in
  let P := Inputs.grs80 (D := D64) in
  let r := Nztm.geod_tm_grid (D := D64) P (of_Q 1.0) (of_Q 0.0) in
  Nztm.geod_tm (D := D64) 1 P (of_Q 1.0) (of_Q 0.0) = Some r /\
  (is_nan (snd r) = true \/ SFeqb (snd r) (of_Q 10000000.0) = true).
Proof.
  cbv zeta. split; [vm_compute; reflexivity|].
  apply (geod_tm_equator_b64 Inputs.sin_id Inputs.cos_one
           (Nztm.tm_zero (D := Binary64 Inputs.sin_id Inputs.cos_one))
           (of_Q 6378137) (of_Q 298.257222101) (of_Q 0.0) (of_Q 0.9996)
           (of_Q 0.0) (of_Q 1600000.0) (of_Q 10000000.0) (of_Q 1.0)
           (of_Q 1.0) 1).
  - vm_compute. reflexivity.
  - vm_compute. reflexivity.
Defined.

End B64NanExamples.

(** ** Binary64: symmetry of [geod_tm] about the central meridian

    Changing the sign of an operand changes the sign of a product or a
    quotient and nothing else: rounding to nearest even is symmetric. *)

Section B64Opp.

Import B64.

Local Abbreviation mul := (SFmul prec emax).
Local Abbreviation div := (SFdiv prec emax).

Lemma binary_round_aux_opp s m e l :
  binary_round_aux prec emax (negb s) m e l
  = SFopp (binary_round_aux prec emax s m e l).
Proof.
  unfold binary_round_aux.
  destruct (shr_fexp prec emax m e l) as [mrs' e'].
  destruct (shr_fexp prec emax _ e' loc_Exact) as [mrs'' e''].
  destruct (shr_m mrs''); try reflexivity.
  destruct (Z.leb e'' (emax - prec)); reflexivity.
Qed.

Lemma xorb_opp_l s s' : xorb (negb s) s' = negb (xorb s s').
Proof. destruct s, s'; reflexivity. Qed.

Lemma xorb_opp_r s s' : xorb s (negb s') = negb (xorb s s').
Proof. destruct s, s'; reflexivity. Qed.

Lemma SFopp_involutive x : SFopp (SFopp x) = x.
Proof.
  destruct x as [s|s| |s m e]; cbn; rewrite ?negb_involutive; reflexivity.
Qed.

Lemma mul_opp_r x y : mul x (SFopp y) = SFopp (mul x y).
Proof.
  destruct x as [s|s| |s m e], y as [s'|s'| |s' m' e']; cbn [SFopp SFmul];
    try reflexivity; try (rewrite xorb_opp_r; reflexivity).
  rewrite xorb_opp_r. apply binary_round_aux_opp.
Qed.

Lemma mul_opp_l x y : mul (SFopp x) y = SFopp (mul x y).
Proof.
  destruct x as [s|s| |s m e], y as [s'|s'| |s' m' e']; cbn [SFopp SFmul];
    try reflexivity; try (rewrite xorb_opp_l; reflexivity).
  rewrite xorb_opp_l. apply binary_round_aux_opp.
Qed.

Lemma div_opp_l x y : div (SFopp x) y = SFopp (div x y).
Proof.
  destruct x as [s|s| |s m e], y as [s'|s'| |s' m' e']; cbn [SFopp SFdiv];
    try reflexivity; try (rewrite xorb_opp_l; reflexivity).
  destruct (SFdiv_core_binary prec emax (Z.pos m) e (Z.pos m') e')
    as [[mz ez] lz].
  rewrite xorb_opp_l. apply binary_round_aux_opp.
Qed.

Lemma SFcompare_opp x y : SFcompare (SFopp x) (SFopp y) = SFcompare y x.
Proof.
  destruct x as [s|s| |s m e], y as [s'|s'| |s' m' e']; cbn [SFopp SFcompare];
    try reflexivity;
    try (destruct s; reflexivity); try (destruct s'; reflexivity);
    try (destruct s, s'; reflexivity).
  destruct s, s'; cbn [negb]; try reflexivity.
  - rewrite (Z.compare_antisym e e').
    destruct (e ?= e')%Z; cbn [CompOpp]; try reflexivity.
    rewrite (Pos.compare_cont_antisym m' m Eq). cbn [CompOpp].
    destruct (Pos.compare_cont Eq m m'); reflexivity.
  - rewrite (Z.compare_antisym e e').
    destruct (e ?= e')%Z; cbn [CompOpp]; try reflexivity.
    rewrite (Pos.compare_cont_antisym m m' Eq). reflexivity.
Qed.

Lemma SFleb_ltb x y : SFleb x y = true -> SFltb y x = false.
Proof.
  unfold SFleb, SFltb.
  destruct (SFcompare x y) as [c|] eqn:E; [|discriminate].
  rewrite (SFcompare_antisym _ _ _ E).
  destruct c; try discriminate; reflexivity.
Qed.

End B64Opp.

Section B64Mirror.

Import B64.

Variables sin64 cos64 : spec_float -> spec_float.

Let D64 : Double spec_float := Binary64 sin64 cos64.
Local Existing Instance D64.

(** After the loops: [dlon] enters the northing through [wc * wc] only,
    and the easting as a factor. *)
Lemma geod_tm_grid_opp_b64 (tm : Nztm.tmprojection spec_float)
    (d lt : spec_float) :
  exists q,
    fst (Nztm.geod_tm_grid tm d lt) = dadd q (Nztm.falsee tm) /\
    fst (Nztm.geod_tm_grid tm (dopp d) lt)
    = dadd (dopp q) (Nztm.falsee tm) /\
    snd (Nztm.geod_tm_grid tm (dopp d) lt) = snd (Nztm.geod_tm_grid tm d lt).
Proof.
  unfold Nztm.geod_tm_grid. cbv zeta. cbn [fst snd].
  set (m := Nztm.meridian_arc tm lt).
  cbv [dmul dadd dsub ddiv dopp D64 Binary64].
  rewrite !mul_opp_r, !mul_opp_l, !mul_opp_r, !SFopp_involutive, !div_opp_l.
  eexists. split; [reflexivity|]. split; reflexivity.
Qed.

(** X19.  Binary64, whatever [sin] and [cos] return: when the differences
    of two longitudes to the central meridian are opposite doubles within
    [[-PI, PI]] (as for [ln], [-ln] and [cm = 0.0]), [geod_tm] returns
    for both, with the same northing bit for bit and with eastings
    [q + fe] and [-q + fe] for one double [q]. *)
Theorem geod_tm_mirror_longitude_b64 (tm : Nztm.tmprojection spec_float)
    (ln ln' lt : spec_float) :
  let d := dsub ln (Nztm.meridian tm) in
  dsub ln' (Nztm.meridian tm) = dopp d ->
  SFleb (dopp Nztm.PI) d = true -> SFleb d Nztm.PI = true ->
  exists q cn,
    Nztm.geod_tm 1 tm ln lt = Some (dadd q (Nztm.falsee tm), cn) /\
    Nztm.geod_tm 1 tm ln' lt = Some (dadd (dopp q) (Nztm.falsee tm), cn).
Proof.
  intros d Hd' Hlo Hhi.
  destruct (geod_tm_grid_opp_b64 tm d lt) as (q & E1 & E2 & E3).
  exists q, (snd (Nztm.geod_tm_grid tm d lt)).
  unfold Nztm.geod_tm, Nztm.geod_tm_dlon, Nztm.while_gt_PI, Nztm.while_lt_mPI.
  rewrite Hd'. fold d.
  assert (H1 : dlt Nztm.PI d = false) by (apply SFleb_ltb; exact Hhi).
  assert (H2 : dlt d (dopp Nztm.PI) = false) by (apply SFleb_ltb; exact Hlo).
  assert (H3 : dlt Nztm.PI (dopp d) = false).
  { apply SFleb_ltb. unfold SFleb.
    rewrite <- (SFopp_involutive Nztm.PI), SFcompare_opp. exact Hlo. }
  assert (H4 : dlt (dopp d) (dopp Nztm.PI) = false).
  { apply SFleb_ltb. unfold SFleb. cbn [dopp D64 Binary64].
    rewrite SFcompare_opp. exact Hhi. }
  rewrite H1, H2, H3, H4.
  split.
  - rewrite (surjective_pairing (Nztm.geod_tm_grid tm d lt)), E1.
    reflexivity.
  - rewrite (surjective_pairing (Nztm.geod_tm_grid tm (dopp d) lt)), E2, E3.
    reflexivity.
Qed.

End B64Mirror.

Section B64MirrorExample.

Import B64.

Lemma geod_tm_mirror_longitude_b64_witness :
  let D64 := Binary64 Inputs.sin_id Inputs.cos_one in
  let P := Inputs.grs80 (D := D64) in
  exists q cn,
    Nztm.geod_tm (D := D64) 1 P (of_Q 1.0) (of_Q 0.5)
    = Some (SFadd prec emax q (Nztm.falsee P), cn) /\
    Nztm.geod_tm (D := D64) 1 P (SFopp (of_Q 1.0)) (of_Q 0.5)
    = Some (SFadd prec emax (SFopp q) (Nztm.falsee P), cn).
Proof.
  cbv zeta.
  apply (geod_tm_mirror_longitude_b64 Inputs.sin_id Inputs.cos_one
           (Inputs.grs80 (D := Binary64 Inputs.sin_id Inputs.cos_one))
           (of_Q 1.0) (SFopp (of_Q 1.0)) (of_Q 0.5));
    vm_compute; reflexivity.
Defined.

End B64MirrorExample.

(** ** Binary64: [geod_tm] returns for longitudes within one turn and a
    half of the central meridian *)

Section B64Turn.

Import B64.

Local Open Scope Z_scope.

Local Abbreviation mPI := 7074237752028456%positive.
Local Abbreviation m3PI := 5305678314021342%positive.

Lemma SFsub_pos_pos m e q eq :
  SFsub prec emax (S754_finite false m e) (S754_finite false q eq)
  = binary_normalize prec emax
      (Zpos (fst (shl_align m e (Z.min e eq)))
       - Zpos (fst (shl_align q eq (Z.min e eq)))) (Z.min e eq) false.
Proof. reflexivity. Qed.

(** A mantissa of at most [q]'s size, at an exponent at most [q]'s. *)
Lemma finite_within s k e q eq :
  e < eq \/ (e = eq /\ Zpos k <= Zpos q) ->
  SFltb (S754_finite false q eq) (S754_finite s k e) = false /\
  SFltb (S754_finite s k e) (S754_finite true q eq) = false.
Proof.
  intros H. unfold SFltb, SFcompare.
  destruct H as [H|[-> H]].
  - assert (C1 : (eq ?= e) = Gt) by (apply Z.compare_gt_iff; exact H).
    assert (C2 : (e ?= eq) = Lt) by exact H.
    rewrite C1, C2. destruct s; split; reflexivity.
  - rewrite Z.compare_refl.
    destruct s; split; try reflexivity.
    + change (Pos.compare_cont Eq k q) with (Zpos k ?= Zpos q).
      destruct (Z.compare_spec (Zpos k) (Zpos q)); try reflexivity. lia.
    + change (Pos.compare_cont Eq q k) with (Zpos q ?= Zpos k).
      destruct (Z.compare_spec (Zpos q) (Zpos k)); try reflexivity. lia.
Qed.

(** An integer [k] at exponent [e] whose value [|k| 2^e] is at most [PI]
    is normalised to a double in [[-PI, PI]]. *)
Lemma normalize_within_PI k e :
  -51 <= e <= -50 -> Z.abs k * 2 ^ (e + 51) <= Zpos mPI ->
  let y := binary_normalize prec emax k e false in
  SFltb (S754_finite false mPI (-51)) y = false /\
  SFltb y (S754_finite true mPI (-51)) = false.
Proof.
  intros He Hk y. subst y.
  assert (Hcase : forall s p, Z.abs k = Zpos p ->
            let y := binary_round prec emax s p e in
            SFltb (S754_finite false mPI (-51)) y = false /\
            SFltb y (S754_finite true mPI (-51)) = false).
  { intros s p Hp. rewrite Hp in Hk.
    destruct (digits2_bounds p) as [B1 B2].
    assert (P2 : 1 <= 2 ^ (e + 51))
      by (apply Z.pow_le_mono_r with (b := 0); lia).
    assert (Hd53 : Zpos (digits2_pos p) <= 53).
    { destruct (Z_le_gt_dec (Zpos (digits2_pos p)) 53) as [L|G];
        [exact L|exfalso].
      assert (H : 2 ^ 53 <= 2 ^ (Zpos (digits2_pos p) - 1))
        by (apply Z.pow_le_mono_r; lia).
      change (2 ^ 53) with 9007199254740992 in H. nia. }
    destruct (Z.eq_dec (Zpos (digits2_pos p)) 53) as [E|E].
    - assert (E' : digits2_pos p = 53%positive) by (apply Pos2Z.inj; exact E).
      assert (e = -51).
      { destruct (Z.eq_dec e (-51)) as [H|H]; [exact H|exfalso].
        replace e with (-50) in Hk by lia. change (2 ^ (-50 + 51)) with 2 in Hk.
        rewrite E in B1.
        change (2 ^ (53 - 1)) with 4503599627370496 in B1. lia. }
      subst e. cbv zeta. rewrite binary_round_full by (try exact E'; lia).
      apply finite_within. right. split; [reflexivity|].
      change (2 ^ (-51 + 51)) with 1 in Hk. lia.
    - cbv zeta. rewrite binary_round_small by lia.
      apply finite_within.
      set (d := 53 - Zpos (digits2_pos p)) in *.
      assert (1 <= d) by (unfold d; lia).
      destruct (Z.eq_dec (e - d) (-51)) as [E1|E1]; [right|left; lia].
      split; [exact E1|].
      rewrite iter_xO_Z, Z2Pos.id by lia.
      replace (e + 51) with d in Hk by lia. exact Hk. }
  destruct k as [|p|p]; cbn [binary_normalize].
  - split; reflexivity.
  - apply Hcase. reflexivity.
  - apply Hcase. reflexivity.
Qed.

Lemma lt_pos_cases q eq m e :
  SFltb (S754_finite false q eq) (S754_finite false m e) = true ->
  eq < e \/ (e = eq /\ Zpos q < Zpos m).
Proof.
  intros Hlt. unfold SFltb, SFcompare in Hlt.
  destruct (Z.compare_spec eq e) as [E|E|E]; try discriminate.
  - right. split; [symmetry; exact E|].
    change (Pos.compare_cont Eq q m) with (Zpos q ?= Zpos m) in Hlt.
    destruct (Z.compare_spec (Zpos q) (Zpos m)); try discriminate. lia.
  - left. exact E.
Qed.

Lemma le_pos_cases m e q eq :
  SFleb (S754_finite false m e) (S754_finite false q eq) = true ->
  e < eq \/ (e = eq /\ Zpos m <= Zpos q).
Proof.
  intros Hle. unfold SFleb, SFcompare in Hle.
  destruct (Z.compare_spec e eq) as [E|E|E]; try discriminate.
  - right. split; [exact E|].
    change (Pos.compare_cont Eq m q) with (Zpos m ?= Zpos q) in Hle.
    destruct (Z.compare_spec (Zpos m) (Zpos q)); try discriminate; lia.
  - left. exact E.
Qed.

Lemma le_neg_cases q eq m e :
  SFleb (S754_finite true q eq) (S754_finite true m e) = true ->
  e < eq \/ (e = eq /\ Zpos m <= Zpos q).
Proof.
  intros Hle. unfold SFleb, SFcompare in Hle.
  destruct (Z.compare_spec eq e) as [E|E|E]; try discriminate.
  - right. split; [symmetry; exact E|].
    change (Pos.compare_cont Eq q m) with (Zpos q ?= Zpos m) in Hle.
    destruct (Z.compare_spec (Zpos q) (Zpos m)); try discriminate; lia.
  - left. exact E.
Qed.

(** The step of the first loop, from [(PI, 3 PI]]. *)
Lemma sub_TWOPI_within_PI x :
  valid x ->
  SFltb (S754_finite false mPI (-51)) x = true ->
  SFleb x (S754_finite false m3PI (-49)) = true ->
  let y := SFsub prec emax x (S754_finite false mPI (-50)) in
  SFltb (S754_finite false mPI (-51)) y = false /\
  SFltb y (S754_finite true mPI (-51)) = false.
Proof.
  intros Hv Hlt Hle.
  destruct x as [s|s| |s m e]; try discriminate.
  - destruct s; discriminate.
  - destruct s; [discriminate|].
    apply lt_pos_cases in Hlt. apply le_pos_cases in Hle.
    destruct (valid_finite_digits _ _ _ Hv) as [Hd He']; [lia|].
    destruct (digits2_bounds m) as [B1 B2]. rewrite Hd in B1, B2.
    change (2 ^ (Zpos 53 - 1)) with 4503599627370496 in B1.
    change (2 ^ Zpos 53) with 9007199254740992 in B2.
    cbv zeta. rewrite SFsub_pos_pos.
    assert (Hc : e = -51 \/ e = -50 \/ e = -49) by lia.
    destruct Hc as [-> | [-> | ->]].
    + rewrite Z.min_l by lia.
      rewrite shl_align_ge by lia. rewrite shl_align_lt by lia. cbn [fst].
      replace (Z.to_pos (-50 - -51)) with 1%positive by reflexivity.
      rewrite iter_xO_Z. change (2 ^ Z.pos 1) with 2.
      apply normalize_within_PI; [lia|].
      change (2 ^ (-51 + 51)) with 1. lia.
    + rewrite Z.min_l by lia. rewrite !shl_align_ge by lia. cbn [fst].
      apply normalize_within_PI; [lia|].
      change (2 ^ (-50 + 51)) with 2. lia.
    + rewrite Z.min_r by lia.
      rewrite (shl_align_ge mPI) by lia. rewrite shl_align_lt by lia.
      cbn [fst].
      replace (Z.to_pos (-49 - -50)) with 1%positive by reflexivity.
      rewrite iter_xO_Z. change (2 ^ Z.pos 1) with 2.
      apply normalize_within_PI; [lia|].
      change (2 ^ (-50 + 51)) with 2. lia.
Qed.

(** The step of the second loop, from [[-3 PI, -PI)]. *)
Lemma add_TWOPI_within_PI x :
  valid x ->
  SFltb x (S754_finite true mPI (-51)) = true ->
  SFleb (S754_finite true m3PI (-49)) x = true ->
  let y := SFadd prec emax x (S754_finite false mPI (-50)) in
  SFltb (S754_finite false mPI (-51)) y = false /\
  SFltb y (S754_finite true mPI (-51)) = false.
Proof.
  intros Hv Hlt Hle.
  destruct x as [s|s| |s m e]; try discriminate.
  - destruct s; discriminate.
  - destruct s; [|discriminate].
    apply lt_neg_cases in Hlt. apply le_neg_cases in Hle.
    destruct (valid_finite_digits _ _ _ Hv) as [Hd He']; [lia|].
    destruct (digits2_bounds m) as [B1 B2]. rewrite Hd in B1, B2.
    change (2 ^ (Zpos 53 - 1)) with 4503599627370496 in B1.
    change (2 ^ Zpos 53) with 9007199254740992 in B2.
    cbv zeta. rewrite SFadd_neg_pos.
    assert (Hc : e = -51 \/ e = -50 \/ e = -49) by lia.
    destruct Hc as [-> | [-> | ->]].
    + rewrite Z.min_l by lia.
      rewrite shl_align_ge by lia. rewrite shl_align_lt by lia. cbn [fst].
      replace (Z.to_pos (-50 - -51)) with 1%positive by reflexivity.
      rewrite iter_xO_Z. change (2 ^ Z.pos 1) with 2.
      apply normalize_within_PI; [lia|].
      change (2 ^ (-51 + 51)) with 1. lia.
    + rewrite Z.min_l by lia. rewrite !shl_align_ge by lia. cbn [fst].
      apply normalize_within_PI; [lia|].
      change (2 ^ (-50 + 51)) with 2. lia.
    + rewrite Z.min_r by lia.
      rewrite (shl_align_ge mPI) by lia. rewrite shl_align_lt by lia.
      cbn [fst].
      replace (Z.to_pos (-49 - -50)) with 1%positive by reflexivity.
      rewrite iter_xO_Z. change (2 ^ Z.pos 1) with 2.
      apply normalize_within_PI; [lia|].
      change (2 ^ (-50 + 51)) with 2. lia.
Qed.

End B64Turn.

Section B64Returns.

Import B64.

Variables sin64 cos64 : spec_float -> spec_float.

Let D64 : Double spec_float := Binary64 sin64 cos64.
Local Existing Instance D64.

Lemma PI3_b64 :
  dmul (lit 3.0) Nztm.PI = S754_finite false 5305678314021342 (-49).
Proof. vm_compute. reflexivity. Qed.

Let HPI : Nztm.PI = S754_finite false 7074237752028456 (-51)
  := PI_b64 sin64 cos64.
Let HTWOPI : Nztm.TWOPI = S754_finite false 7074237752028456 (-50)
  := TWOPI_b64 sin64 cos64.

Lemma geod_tm_dlon_one_turn (cm ln : spec_float) (fuel : nat) :
  valid ln -> valid cm ->
  let d := dsub ln cm in
  SFleb (dopp (dmul (lit 3.0) Nztm.PI)) d = true ->
  SFleb d (dmul (lit 3.0) Nztm.PI) = true ->
  exists r, Nztm.geod_tm_dlon (S (S fuel)) cm ln = Some r.
Proof.
  intros Hl Hc d Hlo Hhi.
  assert (Hv : valid d) by (apply SFsub_valid; assumption).
  unfold Nztm.geod_tm_dlon. fold d.
  rewrite PI3_b64 in Hlo, Hhi. cbn [dopp D64 Binary64 SFopp negb] in Hlo.
  cbn [Nztm.while_gt_PI].
  rewrite HPI, HTWOPI.
  destruct (dlt _ d) eqn:E1.
  - destruct (sub_TWOPI_within_PI d Hv E1 Hhi) as [H1 H2].
    cbn [dsub dlt D64 Binary64]. rewrite H1.
    cbn [Nztm.while_lt_mPI].
    rewrite HPI. cbn [dopp dlt D64 Binary64 SFopp negb].
    rewrite H2. eexists. reflexivity.
  - cbn [Nztm.while_lt_mPI].
    rewrite HPI, HTWOPI.
    cbn [dopp D64 Binary64 SFopp negb].
    destruct (dlt d _) eqn:E2.
    + destruct (add_TWOPI_within_PI d Hv E2 Hlo) as [H1 H2].
      cbn [dadd dlt D64 Binary64]. rewrite H2. eexists. reflexivity.
    + eexists. reflexivity.
Qed.

(** X20.  Binary64, whatever [sin] and [cos] return: for every
    projection and latitude and every longitude (a double) whose
    difference to the central meridian (a double) lies within
    [[-3 PI, 3 PI]] ([3.0 * PI] as the program's arithmetic computes it),
    [geod_tm] returns: each loop runs at most once. *)
Theorem geod_tm_returns_b64 (tm : Nztm.tmprojection spec_float)
    (ln lt : spec_float) (fuel : nat) :
  valid ln -> valid (Nztm.meridian tm) ->
  let d := dsub ln (Nztm.meridian tm) in
  SFleb (dopp (dmul (lit 3.0) Nztm.PI)) d = true ->
  SFleb d (dmul (lit 3.0) Nztm.PI) = true ->
  exists r, Nztm.geod_tm (S (S fuel)) tm ln lt = Some r.
Proof.
  intros Hl Hc d Hlo Hhi.
  destruct (geod_tm_dlon_one_turn (Nztm.meridian tm) ln fuel Hl Hc Hlo Hhi)
    as [r Hr].
  exists (Nztm.geod_tm_grid tm r lt). unfold Nztm.geod_tm. rewrite Hr.
  reflexivity.
Qed.

End B64Returns.

Section B64ReturnsExample.

Import B64.

Lemma geod_tm_returns_b64_witness :
  let D64 := Binary64 Inputs.sin_id Inputs.cos_one in
  let P := Inputs.grs80 (D := D64) in
  exists r, Nztm.geod_tm (D := D64) 2 P (of_Q 5.0) (of_Q 0.5) = Some r.
Proof.
  cbv zeta.
  apply (geod_tm_returns_b64 Inputs.sin_id Inputs.cos_one
           (Inputs.grs80 (D := Binary64 Inputs.sin_id Inputs.cos_one))
           (of_Q 5.0) (of_Q 0.5) 0);
    vm_compute; reflexivity.
Defined.

End B64ReturnsExample.

(** ** Binary64: [geod_tm] returns for every longitude within [2^56] of
    the central meridian *)

Section B64Shift.

Import B64.

Local Open Scope Z_scope.

(** What [n] right shifts of [K] leave: the quotient in [shr_m], and the
    round bit set only when the remainder is at least half. *)
Local Abbreviation shifted K n mrs :=
  (0 <= shr_m mrs /\
   exists R, K = shr_m mrs * 2 ^ n + R /\ 0 <= R < 2 ^ n /\
             (shr_r mrs = true -> 2 ^ n <= 2 * R)).

Lemma shifted_shr_1 K n mrs :
  0 <= n -> shifted K n mrs -> shifted K (n + 1) (shr_1 mrs).
Proof.
  intros Hn (Hm & R & HK & HR & Hr).
  assert (P : 0 < 2 ^ n) by (apply Z.pow_pos_nonneg; lia).
  assert (P1 : 2 ^ (n + 1) = 2 * 2 ^ n).
  { rewrite Z.pow_add_r by lia. change (2 ^ 1) with 2. lia. }
  destruct mrs as [m r s]. cbn [shr_m shr_r] in *.
  destruct m as [|p|p]; [| |lia].
  - split; [cbn; lia|]. exists R. cbn [shr_1 shr_m shr_r].
    repeat split; try lia; try discriminate.
  - destruct p as [p|p|]; cbn [shr_1 shr_m shr_r].
    + split; [lia|]. exists (2 ^ n + R).
      change (Zpos p~1) with (2 * Zpos p + 1) in HK.
      repeat split; try lia; nia.
    + split; [lia|]. exists R.
      change (Zpos p~0) with (2 * Zpos p) in HK.
      repeat split; try lia; try nia; try discriminate.
    + split; [lia|]. exists (2 ^ n + R).
      repeat split; try lia; nia.
Qed.

Lemma shifted_iter K p : forall n mrs,
  0 <= n -> shifted K n mrs -> shifted K (n + Zpos p) (iter_pos shr_1 p mrs).
Proof.
  induction p as [p IH|p IH|]; intros n mrs Hn H; cbn [iter_pos].
  - replace (n + Zpos p~1) with (n + 1 + Zpos p + Zpos p) by lia.
    apply IH; [lia|]. apply IH; [lia|]. now apply shifted_shr_1.
  - replace (n + Zpos p~0) with (n + Zpos p + Zpos p) by lia.
    apply IH; [lia|]. now apply IH.
  - now apply shifted_shr_1.
Qed.

Lemma shifted_0 K : 0 <= K ->
  shifted K 0 {| shr_m := K; shr_r := false; shr_s := false |}.
Proof.
  intros H. split; [exact H|]. exists 0. cbn [shr_m shr_r].
  repeat split; try lia; try discriminate.
Qed.

Lemma round_nearest_even_up m l :
  round_nearest_even m l = m \/
  (round_nearest_even m l = m + 1 /\
   match l with loc_Inexact Eq | loc_Inexact Gt => True | _ => False end).
Proof.
  destruct l as [|[]]; cbn [round_nearest_even]; auto.
  destruct (Z.even m); auto.
Qed.

Lemma loc_of_shr_record_r mrs :
  match loc_of_shr_record mrs with
  | loc_Inexact Eq | loc_Inexact Gt => True | _ => False
  end -> shr_r mrs = true.
Proof. destruct mrs as [m [] []]; cbn; auto. Qed.

(** Rounding a positive integer of more than 53 digits: a double of 53
    digits, at most half a unit of its last place above the integer. *)
Lemma binary_round_long sx K e0 :
  let D := Zpos (digits2_pos K) in
  let s := D - 53 in
  53 < D -> -1074 <= e0 -> e0 + s < 971 ->
  exists m' e',
    binary_round prec emax sx K e0 = S754_finite sx m' e' /\
    2 ^ 52 <= Zpos m' < 2 ^ 53 /\ e0 + s <= e' /\
    2 * Zpos m' * 2 ^ (e' - e0) <= 2 * Zpos K + 2 ^ s.
Proof.
  intros D s HD He0 Hs.
  unfold binary_round.
  assert (Hf : fexp prec emax (D + e0) = e0 + s).
  { unfold fexp, emin, prec, emax, s. lia. }
  fold D. rewrite Hf, shl_align_ge by (unfold s; lia).
  unfold binary_round_aux.
  assert (Hs1 : shr_fexp prec emax (Zpos K) e0 loc_Exact
                = (iter_pos shr_1 (Z.to_pos s)
                     {| shr_m := Zpos K; shr_r := false; shr_s := false |},
                   e0 + s)).
  { unfold shr_fexp. cbn [Zdigits2]. fold D. rewrite Hf.
    replace (e0 + s - e0) with s by lia.
    unfold shr. destruct s as [|p|p] eqn:Es; try lia.
    cbn [shr_record_of_loc Z.to_pos]. reflexivity. }
  rewrite Hs1.
  pose proof (shifted_iter (Zpos K) (Z.to_pos s) 0 _ (Z.le_refl 0)
                (shifted_0 (Zpos K) ltac:(lia))) as J.
  rewrite Z.add_0_l, Z2Pos.id in J by (unfold s; lia).
  set (mrs := iter_pos shr_1 (Z.to_pos s) _) in *.
  destruct J as (Hm & R & HK & HR & Hr).
  destruct (digits2_bounds K) as [B1 B2]. fold D in B1, B2.
  assert (Ps : 0 < 2 ^ s) by (apply Z.pow_pos_nonneg; unfold s; lia).
  assert (HD1 : 2 ^ (D - 1) = 2 ^ 52 * 2 ^ s).
  { rewrite <- Z.pow_add_r by (unfold s; lia). f_equal. unfold s. lia. }
  assert (HD2 : 2 ^ D = 2 ^ 53 * 2 ^ s).
  { rewrite <- Z.pow_add_r by (unfold s; lia). f_equal. unfold s. lia. }
  rewrite HD1 in B1. rewrite HD2 in B2.
  change (2 ^ 52) with 4503599627370496 in *.
  change (2 ^ 53) with 9007199254740992 in *.
  assert (Hm1 : 4503599627370496 <= shr_m mrs < 9007199254740992) by nia.
  set (mr := round_nearest_even (shr_m mrs) (loc_of_shr_record mrs)).
  assert (Hmr : 4503599627370496 <= mr <= 9007199254740992 /\
                2 * mr * 2 ^ s <= 2 * Zpos K + 2 ^ s).
  { unfold mr.
    destruct (round_nearest_even_up (shr_m mrs) (loc_of_shr_record mrs))
      as [E|[E Hl]]; rewrite E.
    - split; [lia|nia].
    - apply loc_of_shr_record_r in Hl. specialize (Hr Hl). split; [lia|nia]. }
  destruct Hmr as [Hmr Hv].
  destruct mr as [|p|p] eqn:Emr; try lia.
  destruct (Z.eq_dec (Zpos p) 9007199254740992) as [Etop|Etop].
  - (* the mantissa overflows: one more shift *)
    assert (Ep : p = 9007199254740992%positive)
      by (apply Pos2Z.inj; exact Etop).
    subst p.
    exists 4503599627370496%positive, (e0 + s + 1).
    assert (Hs2 : shr_fexp prec emax 9007199254740992 (e0 + s) loc_Exact
                  = ({| shr_m := 4503599627370496; shr_r := false;
                        shr_s := false |}, e0 + s + 1)).
    { unfold shr_fexp. change (Zdigits2 9007199254740992) with 54.
      replace (fexp prec emax (54 + (e0 + s)) - (e0 + s)) with 1
        by (unfold fexp, emin, prec, emax; lia).
      reflexivity. }
    rewrite Hs2. cbn [shr_m].
    replace (e0 + s + 1 <=? emax - prec) with true
      by (symmetry; apply Z.leb_le; unfold emax, prec; lia).
    split; [reflexivity|]. split; [lia|]. split; [lia|].
    replace (e0 + s + 1 - e0) with (s + 1) by lia.
    rewrite Z.pow_add_r by (unfold s; lia). change (2 ^ 1) with 2. lia.
  - exists p, (e0 + s).
    assert (Hdp : digits2_pos p = 53%positive).
    { apply digits2_unique.
      change (2 ^ (Zpos 53 - 1)) with 4503599627370496.
      change (2 ^ Zpos 53) with 9007199254740992. lia. }
    assert (Hs2 : shr_fexp prec emax (Zpos p) (e0 + s) loc_Exact
                  = ({| shr_m := Zpos p; shr_r := false; shr_s := false |},
                     e0 + s)).
    { unfold shr_fexp. cbn [Zdigits2]. rewrite Hdp.
      replace (fexp prec emax (53 + (e0 + s)) - (e0 + s)) with 0
        by (unfold fexp, emin, prec, emax; lia).
      reflexivity. }
    rewrite Hs2. cbn [shr_m].
    replace (e0 + s <=? emax - prec) with true
      by (symmetry; apply Z.leb_le; unfold emax, prec; lia).
    split; [reflexivity|]. split; [lia|]. split; [lia|].
    replace (e0 + s - e0) with s by lia. exact Hv.
Qed.



Local Abbreviation mPI := 7074237752028456%positive.


Lemma SFltb_pos_lex m' e' m e :
  e' < e \/ (e' = e /\ Zpos m' < Zpos m) ->
  SFltb (S754_finite false m' e') (S754_finite false m e) = true.
Proof.
  intros H. unfold SFltb, SFcompare. destruct H as [H|[-> H]].
  - assert (C : (e' ?= e) = Lt) by exact H. rewrite C. reflexivity.
  - rewrite Z.compare_refl.
    assert (C : Pos.compare_cont Eq m' m = Lt) by exact H.
    rewrite C. reflexivity.
Qed.

Lemma valid_bounds s m e :
  valid (S754_finite s m e) -> -1074 <= e <= 971 /\ Zpos m < 2 ^ 53.
Proof.
  unfold valid, valid_binary, bounded, canonical_mantissa, fexp, emin,
    prec, emax.
  intros H. apply andb_true_iff in H. destruct H as [H1 H2].
  apply Z.eqb_eq in H1. apply Z.leb_le in H2.
  destruct (digits2_bounds m) as [B1 B2].
  assert (Hd : Zpos (digits2_pos m) <= 53) by lia.
  split; [lia|].
  assert (2 ^ Zpos (digits2_pos m) <= 2 ^ 53) by (apply Z.pow_le_mono_r; lia).
  lia.
Qed.

(** Doubles of 53 digits compare as their values do. *)
Lemma lex_of_value m' e' m e :
  2 ^ 52 <= Zpos m' -> Zpos m < 2 ^ 53 -> -50 <= e' -> -50 <= e ->
  Zpos m' * 2 ^ (e' + 50) < Zpos m * 2 ^ (e + 50) ->
  e' < e \/ (e' = e /\ Zpos m' < Zpos m).
Proof.
  intros H1 H2 He' He H.
  assert (P : 0 < 2 ^ (e + 50)) by (apply Z.pow_pos_nonneg; lia).
  destruct (Z_lt_le_dec e' e) as [L|G]; [left; exact L|right].
  destruct (Z.eq_dec e' e) as [E|E].
  - subst e'. split; [reflexivity|nia].
  - exfalso.
    assert (Hp : 2 ^ (e' + 50) = 2 ^ (e' - e - 1) * 2 * 2 ^ (e + 50)).
    { rewrite <- Z.mul_assoc, <- (Z.pow_succ_r 2 (e + 50)) by lia.
      rewrite <- Z.pow_add_r by lia. f_equal. lia. }
    assert (Q : 1 <= 2 ^ (e' - e - 1))
      by (apply Z.pow_le_mono_r with (b := 0); lia).
    change (2 ^ 52) with 4503599627370496 in H1.
    change (2 ^ 53) with 9007199254740992 in H2.
    rewrite Hp in H. nia.
Qed.

(** Above [8] and below [2^56] a pass of the first loop leaves a smaller
    positive double. *)
Lemma sub_TWOPI_progress m e :
  2 ^ 52 <= Zpos m < 2 ^ 53 -> -49 <= e <= 3 ->
  exists m' e',
    SFsub prec emax (S754_finite false m e) (S754_finite false mPI (-50))
    = S754_finite false m' e' /\
    (e' < e \/ (e' = e /\ Zpos m' < Zpos m)).
Proof.
  intros Hm He.
  rewrite SFsub_pos_pos. rewrite Z.min_r by lia.
  rewrite (shl_align_ge mPI) by lia. rewrite shl_align_lt by lia.
  cbn [fst]. rewrite iter_xO_Z, Z2Pos.id by lia.
  replace (e - -50) with (e + 50) by lia.
  set (k := e + 50) in *.
  assert (Pk : 2 <= 2 ^ k).
  { change 2 with (2 ^ 1) at 1. apply Z.pow_le_mono_r; unfold k; lia. }
  assert (Pk' : 2 ^ k <= 2 ^ 53) by (apply Z.pow_le_mono_r; unfold k; lia).
  change (2 ^ 52) with 4503599627370496 in Hm.
  change (2 ^ 53) with 9007199254740992 in Hm, Pk'.
  destruct (Zpos m * 2 ^ k - Zpos mPI) as [|K|K] eqn:EK; try nia.
  cbn [binary_normalize].
  destruct (digits2_bounds K) as [B1 B2].
  set (D := Zpos (digits2_pos K)) in *.
  assert (HDk : D <= 53 + k).
  { destruct (Z_le_gt_dec D (53 + k)) as [L|G]; [exact L|exfalso].
    assert (H : 2 ^ (53 + k) <= 2 ^ (D - 1)) by (apply Z.pow_le_mono_r; lia).
    rewrite Z.pow_add_r in H by (unfold k; lia).
    change (2 ^ 53) with 9007199254740992 in H. nia. }
  assert (HD50 : 50 < D).
  { destruct (Z_lt_le_dec 50 D) as [L|G]; [exact L|exfalso].
    assert (H : 2 ^ D <= 2 ^ 50) by (apply Z.pow_le_mono_r; unfold D; lia).
    change (2 ^ 50) with 1125899906842624 in H. nia. }
  destruct (Z_le_gt_dec D 53) as [Hsmall|Hlong].
  - (* no rounding: only below 16, where the exponent drops *)
    assert (Hk1 : k = 1).
    { destruct (Z.eq_dec k 1) as [E|E]; [exact E|exfalso].
      assert (H4 : 4 <= 2 ^ k).
      { change 4 with (2 ^ 2). apply Z.pow_le_mono_r; lia. }
      assert (H : 2 ^ D <= 2 ^ 53) by (apply Z.pow_le_mono_r; lia).
      change (2 ^ 53) with 9007199254740992 in H. nia. }
    destruct (Z.eq_dec D 53) as [E53|E53].
    + exists K, (-50). split.
      * apply binary_round_full; [|lia]. apply Pos2Z.inj. exact E53.
      * left. unfold k in Hk1. lia.
    + eexists _, _. split.
      * apply binary_round_small; fold D; lia.
      * left. fold D. unfold k in Hk1. lia.
  - destruct (binary_round_long false K (-50))
      as (m' & e' & Hy & Hm' & He' & Hv); try (fold D; lia).
    fold D in He', Hv.
    exists m', e'. split; [exact Hy|].
    apply lex_of_value; try lia.
    replace (e' - -50) with (e' + 50) in Hv by lia.
    fold k.
    assert (Hs : 2 ^ (D - 53) <= 2 ^ k) by (apply Z.pow_le_mono_r; lia).
    nia.
Qed.

End B64Shift.

Section B64Wide.

Import B64.

Local Open Scope Z_scope.

Variables sin64 cos64 : spec_float -> spec_float.

Let D64 : Double spec_float := Binary64 sin64 cos64.
Local Existing Instance D64.

Local Abbreviation mPI := 7074237752028456%positive.
Local Abbreviation m3PI := 5305678314021342%positive.

Let HPI : Nztm.PI = S754_finite false mPI (-51) := PI_b64 sin64 cos64.
Let HTWOPI : Nztm.TWOPI = S754_finite false mPI (-50)
  := TWOPI_b64 sin64 cos64.

Lemma binary_normalize_opp z e :
  z <> 0 ->
  binary_normalize prec emax (- z) e false
  = SFopp (binary_normalize prec emax z e false).
Proof.
  intros Hz. destruct z as [|p|p]; [contradiction Hz; reflexivity| |];
    cbn [Z.opp binary_normalize]; unfold binary_round;
    destruct (shl_align p e _) as [mz ez].
  - apply (binary_round_aux_opp false).
  - apply (binary_round_aux_opp true).
Qed.

(** A pass of the second loop at [- x] mirrors a pass of the first at
    [x], up to the sign of a zero. *)
Lemma add_TWOPI_opp x :
  dlt Nztm.PI x = true ->
  let y := dsub x Nztm.TWOPI in
  let y' := dadd (dopp x) Nztm.TWOPI in
  y' = dopp y \/ (is_zero y = true /\ is_zero y' = true).
Proof.
  rewrite HPI, HTWOPI. cbn [dlt dsub dadd dopp D64 Binary64].
  intros Hlt. cbv zeta.
  destruct x as [s|s| |s m e].
  - discriminate Hlt.
  - destruct s; [discriminate Hlt|]. left. reflexivity.
  - discriminate Hlt.
  - destruct s; [discriminate Hlt|].
    cbn [SFopp negb]. rewrite SFadd_neg_pos, SFsub_pos_pos.
    set (M := Zpos (fst (shl_align m e _))).
    set (Q := Zpos (fst (shl_align mPI (-50) _))).
    destruct (Z.eq_dec (M - Q) 0) as [E|E].
    + right. replace (- M + Q) with 0 by lia. rewrite E. split; reflexivity.
    + left. replace (- M + Q) with (- (M - Q)) by lia.
      now apply binary_normalize_opp.
Qed.

Lemma dlt_opp x y : dlt (dopp x) (dopp y) = dlt y x.
Proof.
  cbn [dlt dopp D64 Binary64]. unfold SFltb. rewrite SFcompare_opp.
  reflexivity.
Qed.

Lemma while_lt_mPI_zero (fuel : nat) (z : spec_float) :
  is_zero z = true -> Nztm.while_lt_mPI (S fuel) z = Some z.
Proof.
  intros H. cbn [Nztm.while_lt_mPI]. rewrite HPI.
  destruct z as [s|s| |s m e]; try discriminate H. reflexivity.
Qed.

(** If the first loop finishes at [x], the second finishes at [- x]. *)
Lemma while_lt_mPI_mirror (fuel : nat) : forall x r,
  Nztm.while_gt_PI fuel x = Some r ->
  exists r', Nztm.while_lt_mPI fuel (dopp x) = Some r'.
Proof.
  induction fuel as [|fuel IH]; intros x r H; [discriminate|].
  cbn [Nztm.while_gt_PI Nztm.while_lt_mPI] in *.
  rewrite dlt_opp.
  destruct (dlt Nztm.PI x) eqn:E; [|eexists; reflexivity].
  destruct (add_TWOPI_opp x E) as [Ey|[Hz Hz']].
  - rewrite Ey. apply (IH _ r). exact H.
  - destruct fuel as [|fuel']; [discriminate|].
    eexists. apply while_lt_mPI_zero. exact Hz'.
Qed.


(** The first loop finishes from every positive double below [2^56], on
    a double that is not below [-PI]. *)
Lemma while_gt_PI_returns (n : nat) : forall m e,
  valid (S754_finite false m e) -> e <= 3 ->
  (Z.to_nat ((e + 1074) * 2 ^ 53 + Zpos m) <= n)%nat ->
  exists fuel r,
    Nztm.while_gt_PI (S fuel) (S754_finite false m e) = Some r /\
    dlt r (dopp Nztm.PI) = false.
Proof.
  induction n as [|n IH]; intros m e Hv He Hn.
  { exfalso. destruct (valid_bounds _ _ _ Hv) as [Hb _].
    assert (0 < (e + 1074) * 2 ^ 53 + Zpos m) by nia. lia. }
  set (x := S754_finite false m e) in *.
  destruct (dlt Nztm.PI x) eqn:E1.
  - destruct (SFleb x (S754_finite false m3PI (-49))) eqn:E3.
    + (* one pass is enough *)
      pose proof E1 as E1'. rewrite HPI in E1'.
      destruct (sub_TWOPI_within_PI x Hv E1' E3) as [H1 H2].
      exists 1%nat, (dsub x Nztm.TWOPI).
      cbn [Nztm.while_gt_PI]. rewrite E1.
      rewrite HPI, HTWOPI. cbn [dlt dsub dopp D64 Binary64 SFopp negb].
      rewrite H1. split; [reflexivity|exact H2].
    + (* above [3 PI]: the next double is smaller *)
      destruct (valid_bounds _ _ _ Hv) as [Hb Hm53].
      assert (He49 : -49 <= e).
      { destruct (Z_le_gt_dec (-49) e) as [L|G]; [exact L|exfalso].
        assert (C : SFleb x (S754_finite false m3PI (-49)) = true)
          by (apply SFleb_lt_exp; lia).
        rewrite E3 in C. discriminate. }
      destruct (valid_finite_digits _ _ _ Hv) as [Hd _]; [lia|].
      destruct (digits2_bounds m) as [B1 _]. rewrite Hd in B1.
      change (Zpos 53 - 1) with 52 in B1.
      destruct (sub_TWOPI_progress m e) as (m' & e' & Hy & Hlex); try lia.
      assert (Hvy : valid (S754_finite false m' e')).
      { rewrite <- Hy. apply SFsub_valid; [exact Hv|reflexivity]. }
      destruct (valid_bounds _ _ _ Hvy) as [Hb' Hm53'].
      destruct (IH m' e' Hvy) as (fuel & r & Hr & Hlo); [lia| |].
      { change (2 ^ 53) with 9007199254740992 in *. nia. }
      exists (S fuel), r. split; [|exact Hlo].
      change (Nztm.while_gt_PI (S (S fuel)) x)
        with (if dlt Nztm.PI x
              then Nztm.while_gt_PI (S fuel) (dsub x Nztm.TWOPI)
              else Some x).
      rewrite E1, HTWOPI. cbn [dsub D64 Binary64].
      unfold x. rewrite Hy. exact Hr.
  - exists 0%nat, x. cbn [Nztm.while_gt_PI]. rewrite E1.
    split; [reflexivity|]. rewrite HPI. reflexivity.
Qed.

Lemma two56_b64 :
  lit 72057594037927936 = S754_finite false 4503599627370496 4.
Proof. vm_compute. reflexivity. Qed.

Lemma geod_tm_dlon_returns (cm ln : spec_float) :
  valid ln -> valid cm ->
  let d := dsub ln cm in
  dlt (dopp (lit 72057594037927936)) d = true ->
  dlt d (lit 72057594037927936) = true ->
  exists fuel r, Nztm.geod_tm_dlon fuel cm ln = Some r.
Proof.
  intros Hl Hc d Hlo Hhi.
  assert (Hv : valid d) by (apply SFsub_valid; assumption).
  unfold Nztm.geod_tm_dlon. fold d.
  rewrite two56_b64 in Hlo, Hhi.
  cbn [dlt dopp D64 Binary64 SFopp negb] in Hlo, Hhi.
  destruct d as [s|s| |s m e] eqn:Ed.
  - exists 1%nat, (S754_zero s).
    cbn [Nztm.while_gt_PI Nztm.while_lt_mPI]. rewrite HPI. reflexivity.
  - destruct s; discriminate.
  - discriminate.
  - assert (He : e <= 3).
    { assert (Hc4 : e < 4 \/ (e = 4 /\ Zpos m < 4503599627370496)).
      { destruct s.
        - apply lt_neg_cases in Hlo. lia.
        - apply lt_pos_cases in Hhi. lia. }
      destruct Hc4 as [L|[E4 Hm]]; [lia|exfalso].
      destruct (valid_finite_digits _ _ _ Hv) as [Hd _]; [lia|].
      destruct (digits2_bounds m) as [B1 _]. rewrite Hd in B1.
      change (2 ^ (Zpos 53 - 1)) with 4503599627370496 in B1. lia. }
    assert (Hvx : valid (S754_finite false m e)) by exact Hv.
    destruct (while_gt_PI_returns _ m e Hvx He (Nat.le_refl _))
      as (fuel & r & Hr & Hlo').
    destruct s.
    + destruct (while_lt_mPI_mirror (S fuel) _ r Hr) as [r' Hr'].
      exists (S fuel), r'.
      cbn [Nztm.while_gt_PI]. rewrite HPI.
      cbn [dlt D64 Binary64 SFltb SFcompare]. exact Hr'.
    + exists (S fuel), r. rewrite Hr.
      cbn [Nztm.while_lt_mPI]. rewrite Hlo'. reflexivity.
Qed.

Lemma sub_finite_inv x y :
  is_finite (SFsub prec emax x y) = true ->
  is_finite x = true /\ is_finite y = true.
Proof.
  destruct x as [s|s| |s m e], y as [s'|s'| |s' m' e'];
    try (intros _; split; reflexivity); try discriminate;
    destruct s, s'; discriminate.
Qed.

(** X23.  Binary64, whatever [sin] and [cos] return: for every
    projection and latitude and every longitude (a double) whose
    difference to the central meridian (a double) is greater than [-2^56]
    and less than [2^56] (72057594037927936, about 7.2e16), the two loops
    finish and [geod_tm] returns, with a normalised difference in
    [[-PI, PI]].  Below [2^56] the doubles are at most 8 apart, less than
    twice [TWOPI], so that a pass of a loop always reaches another
    double. *)
Theorem geod_tm_returns_wide_b64 (tm : Nztm.tmprojection spec_float)
    (ln lt : spec_float) :
  valid ln -> valid (Nztm.meridian tm) ->
  let d := dsub ln (Nztm.meridian tm) in
  dlt (dopp (lit 72057594037927936)) d = true ->
  dlt d (lit 72057594037927936) = true ->
  exists fuel dlon,
    Nztm.geod_tm fuel tm ln lt = Some (Nztm.geod_tm_grid tm dlon lt) /\
    SFleb (dopp Nztm.PI) dlon = true /\ SFleb dlon Nztm.PI = true.
Proof.
  intros Hl Hc d Hlo Hhi.
  destruct (geod_tm_dlon_returns (Nztm.meridian tm) ln Hl Hc Hlo Hhi)
    as (fuel & r & Hr).
  exists fuel, r. unfold Nztm.geod_tm. rewrite Hr.
  split; [reflexivity|].
  assert (Hf : is_finite d = true).
  { rewrite two56_b64 in Hhi. cbn [dlt D64 Binary64] in Hhi.
    destruct d as [s|s| |s m e]; try reflexivity; try discriminate Hhi.
    destruct s; [|discriminate Hhi].
    rewrite two56_b64 in Hlo. discriminate Hlo. }
  destruct (sub_finite_inv _ _ Hf) as [Hfl Hfc].
  exact (geod_tm_dlon_range_b64 sin64 cos64 fuel _ _ r Hc Hl Hfc Hfl Hr).
Qed.

End B64Wide.

Section B64WideExample.

Import B64.

Lemma geod_tm_returns_wide_b64_witness :
  let D64 := Binary64 Inputs.sin_id Inputs.cos_one in
  let P := Inputs.grs80 (D := D64) in
  exists fuel dlon,
    Nztm.geod_tm (D := D64) fuel P (of_Q 1000000.0) (of_Q 0.5)
    = Some (Nztm.geod_tm_grid (D := D64) P dlon (of_Q 0.5)) /\
    SFleb (SFopp (Nztm.PI (D := D64))) dlon = true /\
    SFleb dlon (Nztm.PI (D := D64)) = true.
Proof.
  cbv zeta.
  apply (geod_tm_returns_wide_b64 Inputs.sin_id Inputs.cos_one
           (Inputs.grs80 (D := Binary64 Inputs.sin_id Inputs.cos_one))
           (of_Q 1000000.0) (of_Q 0.5));
    vm_compute; reflexivity.
Defined.

End B64WideExample.

(** ** Exact arithmetic: the central meridian and the false origin as
    offsets *)

Section ExactOffsets.

Local Existing Instance Exact.
Local Open Scope R_scope.

Variables (tm0 tm0' : Nztm.tmprojection R) (a rf cm sf lto fe fn utom : R).
Variables c de dn : R.

Let P := Nztm.define_tmprojection tm0 a rf cm sf lto fe fn utom.





End ExactOffsets.
